(** * jsonQuerry: a JSON parser with lazily decoded values and a small
      query language (filters and projections) on top of it.

    Shallow embedding of [parser.go] (document parser, query compiler,
    filter evaluation) and [value.go] (value tree, navigation,
    projection), followed by the properties proved about them. *)

From Stdlib Require Import ZArith List Bool Ascii String Lia.
From Stdlib Require Import Floats.SpecFloat.
Import ListNotations.

Set Warnings "-register-all".

Local Open Scope string_scope.
Local Open Scope Z_scope.

(** ** Go strings

    A Go [string] is a sequence of bytes; [String.string] over [ascii]
    (8-bit characters) is used for it.  Comparison ([<], [>]) is the
    lexical byte order, which is [String.ltb]. *)

Module GoStrings.

Definition dquote : ascii := "034"%char.
Definition backslash : ascii := "092"%char.

(** [len(s)] *)
Definition len (s : string) : Z := Z.of_nat (String.length s).

(** [strings.IndexByte(s, c)]: index of the first [c], [None] for -1. *)
Fixpoint IndexByte (s : string) (c : ascii) : option nat :=
  match s with
  | EmptyString => None
  | String a s' =>
      if Ascii.eqb a c then Some O
      else match IndexByte s' c with
           | Some n => Some (S n)
           | None => None
           end
  end.

(** [s[:n]] and [s[n:]] for [n <= len(s)]. *)
Fixpoint take (n : nat) (s : string) : string :=
  match n, s with
  | S n', String a s' => String a (take n' s')
  | _, _ => EmptyString
  end.

Fixpoint drop (n : nat) (s : string) : string :=
  match n, s with
  | S n', String _ s' => drop n' s'
  | _, _ => s
  end.

(** [strings.HasPrefix(s, p)] *)
Definition HasPrefix (s p : string) : bool := String.prefix p s.

(** [strings.Contains(s, substr)]: some suffix of [s] starts with
    [substr]. *)
Fixpoint Contains (s substr : string) : bool :=
  if HasPrefix s substr then true
  else match s with
       | EmptyString => false
       | String _ s' => Contains s' substr
       end.

(** Membership of a byte in a cutset or character set. *)
Fixpoint mem (c : ascii) (set : string) : bool :=
  match set with
  | EmptyString => false
  | String a set' => Ascii.eqb a c || mem c set'
  end.

(** [strings.ContainsAny(s, chars)] *)
Fixpoint ContainsAny (s chars : string) : bool :=
  match s with
  | EmptyString => false
  | String a s' => mem a chars || ContainsAny s' chars
  end.

(** [strings.Replace(s, old, "", -1)] for a one-byte [old]: every
    occurrence of the byte is removed. *)
Fixpoint RemoveAll (s : string) (old : ascii) : string :=
  match s with
  | EmptyString => EmptyString
  | String a s' =>
      if Ascii.eqb a old then RemoveAll s' old
      else String a (RemoveAll s' old)
  end.

(** [strings.TrimLeft(s, cutset)]: drops every leading byte that
    belongs to [cutset]. *)
Fixpoint TrimLeft (s cutset : string) : string :=
  match s with
  | EmptyString => EmptyString
  | String a s' => if mem a cutset then TrimLeft s' cutset else s
  end.

(** [strings.TrimRight(s, cutset)]: drops every trailing byte that
    belongs to [cutset]. *)
Fixpoint TrimRight (s cutset : string) : string :=
  match s with
  | EmptyString => EmptyString
  | String a s' =>
      match TrimRight s' cutset with
      | EmptyString => if mem a cutset then EmptyString else String a EmptyString
      | r => String a r
      end
  end.

(** [strings.ToLower].  On ASCII text it maps ['A'..'Z'] to ['a'..'z']
    and keeps every other byte, which is what is written here.  Go also
    lowers the letters outside ASCII; the model keeps their bytes, and
    is exact on ASCII text only. *)
Definition lower_byte (c : ascii) : ascii :=
  let n := nat_of_ascii c in
  if (Nat.leb 65 n && Nat.leb n 90)%bool then ascii_of_nat (n + 32) else c.

Fixpoint ToLower (s : string) : string :=
  match s with
  | EmptyString => EmptyString
  | String a s' => String (lower_byte a) (ToLower s')
  end.

(** Every byte of [str] satisfies [p]. *)
Fixpoint all_bytes (p : ascii -> bool) (str : string) : bool :=
  match str with
  | EmptyString => true
  | String c str' => p c && all_bytes p str'
  end.

(** [str] between two double quotes. *)
Definition quoted (str : string) : string :=
  String dquote (str ++ String dquote EmptyString).

End GoStrings.
Import GoStrings.

(** ** Numbers

    [float64] is IEEE-754 binary64, taken from [SpecFloat]; [int64] is a
    [Z] in the signed 64-bit range. *)

Definition float64 : Type := spec_float.

Definition prec64 : Z := 53.
Definition emax64 : Z := 1024.

Definition f64_zero : float64 := S754_zero false.

(** The conversion [float64(v)] of an [int64]: round to nearest even. *)
Definition float64_of_int64 (v : Z) : float64 :=
  binary_normalize prec64 emax64 v 0 false.

Definition f64_eq (x y : float64) : bool := SFeqb x y.       (* x == y *)
Definition f64_ne (x y : float64) : bool := negb (SFeqb x y). (* x != y *)
Definition f64_lt (x y : float64) : bool := SFltb x y.       (* x <  y *)
Definition f64_le (x y : float64) : bool := SFleb x y.       (* x <= y *)
Definition f64_gt (x y : float64) : bool := SFltb y x.       (* x >  y *)
Definition f64_ge (x y : float64) : bool := SFleb y x.       (* x >= y *)

Definition int64_min : Z := - 2 ^ 63.
Definition int64_max : Z := 2 ^ 63 - 1.
Definition is_int64 (z : Z) : bool := (int64_min <=? z) && (z <=? int64_max).

(** ** Dynamically typed values ([interface{}])

    The dynamic types that occur in the program: the filter literals
    produced by [typed], the scalars a walk over the tree yields, and the
    containers [Keep] builds. *)

Inductive any : Type :=
| ANil
| ABool (b : bool)
| AInt64 (i : Z)
| AFloat64 (f : float64)
| AString (s : string)
| ASlice (l : list any)
| AMap (m : list (string * any))
| AOther (type_name : string).   (* a value of any other dynamic type *)

(** Type assertions [x.(T)], with [None] for [ok == false]. *)
Definition as_bool (x : any) : option bool :=
  match x with ABool b => Some b | _ => None end.
Definition as_int64 (x : any) : option Z :=
  match x with AInt64 i => Some i | _ => None end.
Definition as_float64 (x : any) : option float64 :=
  match x with AFloat64 f => Some f | _ => None end.
Definition as_string (x : any) : option string :=
  match x with AString s => Some s | _ => None end.

(** [if comp, ok := compared.(T); ok == true && p comp] *)
Definition ok_and {T : Type} (x : option T) (p : T -> bool) : bool :=
  match x with Some comp => p comp | None => false end.

(** ** Filter evaluation ([parser.go], second part)

    In every [checkXxx base compared] the first argument is the literal
    of the filter and the second the value it is compared to:
    [Filter.check] calls [f.op.check(f.val, compareTo)]. *)

Module Filters.

(** [type Operation string] and its constants. *)
Definition Operation : Type := string.

Definition eq : Operation := "===".
Definition partialEq : Operation := "==".
Definition diff : Operation := "!==".
Definition partialDiff : Operation := "!=".
Definition sup : Operation := ">".
Definition supEq : Operation := ">=".
Definition inf : Operation := "<".
Definition infEq : Operation := "<=".
Definition contain : Operation := ":".
Definition notContain : Operation := "!:".
Definition like : Operation := "::".
Definition notLike : Operation := "!::".

Definition findOperation (line : string) : Operation :=
  if String.eqb line "===" then eq
  else if String.eqb line "==" then partialEq
  else if String.eqb line "!==" then diff
  else if String.eqb line "!=" then partialDiff
  else if String.eqb line ">" then sup
  else if String.eqb line ">=" then supEq
  else if String.eqb line "<" then inf
  else if String.eqb line "<=" then infEq
  else if String.eqb line ":" then contain
  else if String.eqb line "!:" then notContain
  else if String.eqb line "::" then like
  else if String.eqb line "!::" then notLike
  else "error".

Fixpoint checkEq (base compared : any) {struct base} : bool :=
  match base with
  | ABool v =>
      match as_bool compared with
      | Some comp => Bool.eqb comp v
      | None => false
      end
  | AInt64 v =>
      if ok_and (as_int64 compared) (fun comp => Z.eqb comp v) then true
      else if ok_and (as_float64 compared)
                (fun comp => f64_eq comp (float64_of_int64 v)) then true
      else false
  | AFloat64 v =>
      if ok_and (as_float64 compared) (fun comp => f64_eq comp v) then true
      else if ok_and (as_int64 compared)
                (fun comp => f64_eq (float64_of_int64 comp) v) then true
      else false
  | AString v =>
      if ok_and (as_string compared) (fun comp => String.eqb comp v) then true
      else false
  | ASlice v => forallb (fun key => checkEq key compared) v
  | _ => false
  end.

Definition checkPartialEq (base compared : any) : bool :=
  match base with
  | ABool v =>
      match as_bool compared with
      | Some comp => Bool.eqb comp v
      | None => false
      end
  | AInt64 v =>
      if ok_and (as_int64 compared) (fun comp => Z.eqb comp v) then true
      else if ok_and (as_float64 compared)
                (fun comp => f64_eq comp (float64_of_int64 v)) then true
      else false
  | AFloat64 v =>
      if ok_and (as_float64 compared) (fun comp => f64_eq comp v) then true
      else if ok_and (as_int64 compared)
                (fun comp => f64_eq (float64_of_int64 comp) v) then true
      else false
  | AString v =>
      match as_string compared with
      | Some comp => Contains comp (RemoveAll v dquote)
      | None => false
      end
  | ASlice v => existsb (fun key => checkEq key compared) v
  | _ => false
  end.

Fixpoint checkDiff (base compared : any) {struct base} : bool :=
  match base with
  | ABool v =>
      match as_bool compared with
      | Some comp => negb (Bool.eqb comp v)
      | None => false
      end
  | AInt64 v =>
      if ok_and (as_int64 compared) (fun comp => negb (Z.eqb comp v)) then true
      else if ok_and (as_float64 compared)
                (fun comp => f64_ne comp (float64_of_int64 v)) then true
      else false
  | AFloat64 v =>
      if ok_and (as_float64 compared) (fun comp => f64_ne comp v) then true
      else if ok_and (as_int64 compared)
                (fun comp => f64_ne (float64_of_int64 comp) v) then true
      else false
  | AString v =>
      if ok_and (as_string compared) (fun comp => negb (String.eqb comp v))
      then true else false
  | ASlice v => forallb (fun key => negb (checkDiff key compared)) v
  | _ => false
  end.

Definition checkPartialDiff (base compared : any) : bool :=
  match base with
  | ABool v =>
      match as_bool compared with
      | Some comp => negb (Bool.eqb comp v)
      | None => false
      end
  | AInt64 v =>
      if ok_and (as_int64 compared) (fun comp => negb (Z.eqb comp v)) then true
      else if ok_and (as_float64 compared)
                (fun comp => f64_ne comp (float64_of_int64 v)) then true
      else false
  | AFloat64 v =>
      if ok_and (as_float64 compared) (fun comp => f64_ne comp v) then true
      else if ok_and (as_int64 compared)
                (fun comp => f64_ne (float64_of_int64 comp) v) then true
      else false
  | AString v =>
      if ok_and (as_string compared) (fun comp => negb (String.eqb comp v))
      then true else false
  | ASlice v => existsb (fun key => negb (checkDiff key compared)) v
  | _ => false
  end.

Fixpoint checkSup (base compared : any) {struct base} : bool :=
  match base with
  | ABool _ | ANil => false
  | AInt64 v =>
      if ok_and (as_int64 compared) (fun comp => Z.gtb comp v) then true
      else if ok_and (as_float64 compared)
                (fun comp => f64_gt comp (float64_of_int64 v)) then true
      else false
  | AFloat64 v =>
      if ok_and (as_float64 compared) (fun comp => f64_gt comp v) then true
      else if ok_and (as_int64 compared)
                (fun comp => f64_gt (float64_of_int64 comp) v) then true
      else false
  | AString v =>
      if ok_and (as_string compared) (fun comp => String.ltb v comp)
      then true else false
  | ASlice v => forallb (fun key => checkSup key compared) v
  | _ => false
  end.

Fixpoint checkSupEq (base compared : any) {struct base} : bool :=
  match base with
  | ABool _ | ANil => false
  | AInt64 v =>
      if ok_and (as_int64 compared) (fun comp => Z.geb comp v) then true
      else if ok_and (as_float64 compared)
                (fun comp => f64_ge comp (float64_of_int64 v)) then true
      else false
  | AFloat64 v =>
      if ok_and (as_float64 compared) (fun comp => f64_ge comp v) then true
      else if ok_and (as_int64 compared)
                (fun comp => f64_ge (float64_of_int64 comp) v) then true
      else false
  | AString v =>
      (* comp > v *)
      if ok_and (as_string compared) (fun comp => String.ltb v comp)
      then true else false
  | ASlice v => existsb (fun key => checkSupEq key compared) v
  | _ => false
  end.

Definition checkInf (base compared : any) : bool :=
  match base with
  | ABool _ | ANil => false
  | AInt64 v =>
      if ok_and (as_int64 compared) (fun comp => Z.ltb comp v) then true
      else if ok_and (as_float64 compared)
                (fun comp => f64_lt comp (float64_of_int64 v)) then true
      else false
  | AFloat64 v =>
      if ok_and (as_float64 compared) (fun comp => f64_lt comp v) then true
      else if ok_and (as_int64 compared)
                (fun comp => f64_lt (float64_of_int64 comp) v) then true
      else false
  | AString v =>
      if ok_and (as_string compared) (fun comp => String.ltb comp v)
      then true else false
  | ASlice v => forallb (fun key => checkSup key compared) v
  | _ => false
  end.

Fixpoint checkInfEq (base compared : any) {struct base} : bool :=
  match base with
  | ABool _ | ANil => false
  | AInt64 v =>
      if ok_and (as_int64 compared) (fun comp => Z.leb comp v) then true
      else if ok_and (as_float64 compared)
                (fun comp => f64_le comp (float64_of_int64 v)) then true
      else false
  | AFloat64 v =>
      if ok_and (as_float64 compared) (fun comp => f64_le comp v) then true
      else if ok_and (as_int64 compared)
                (fun comp => f64_le (float64_of_int64 comp) v) then true
      else false
  | AString v =>
      (* v < comp *)
      if ok_and (as_string compared) (fun comp => String.ltb v comp)
      then true else false
  | ASlice v => existsb (fun key => checkInfEq key compared) v
  | _ => false
  end.

(** The base string of the contain and like families: lower-cased,
    then [TrimLeft] and [TrimRight] with the cutset holding the double
    quote. *)
Definition cutset_quote : string := String dquote EmptyString.

Definition checkContain (base compared : any) : bool :=
  match as_string base with
  | Some b =>
      match as_string compared with
      | Some c =>
          let b := ToLower b in
          let b := TrimLeft b cutset_quote in
          let b := TrimRight b cutset_quote in
          let c := ToLower c in
          Contains b c
      | None => false
      end
  | None => false
  end.

Definition checkNotContain (base compared : any) : bool :=
  match as_string base with
  | Some b =>
      match as_string compared with
      | Some c =>
          let b := ToLower b in
          let b := TrimLeft b cutset_quote in
          let b := TrimRight b cutset_quote in
          let c := ToLower c in
          negb (Contains b c)
      | None => false
      end
  | None => false
  end.

Section Evaluation.

(** [regexp.MatchString(pattern, s)] of the Go library: [None] when the
    pattern does not compile. *)
Variable MatchString : string -> string -> option bool.

Definition checkLike (base compared : any) : bool :=
  match as_string base with
  | Some b =>
      match as_string compared with
      | Some c =>
          let b := ToLower b in
          let b := TrimLeft b cutset_quote in
          let b := TrimRight b cutset_quote in
          let c := ToLower c in
          match MatchString b c with
          | Some ok => ok
          | None => false
          end
      | None => false
      end
  | None => false
  end.

Definition checkNotLike (base compared : any) : bool :=
  match as_string base with
  | Some b =>
      match as_string compared with
      | Some c =>
          let b := ToLower b in
          let b := TrimLeft b cutset_quote in
          let b := TrimRight b cutset_quote in
          let c := ToLower c in
          match MatchString b c with
          | Some ok => negb ok
          | None => false
          end
      | None => false
      end
  | None => false
  end.

(** [func (o Operation) check(base, compared interface{}) bool] *)
Definition check (o : Operation) (base compared : any) : bool :=
  if String.eqb o eq then checkEq base compared
  else if String.eqb o partialEq then checkPartialEq base compared
  else if String.eqb o diff then checkDiff base compared
  else if String.eqb o partialDiff then checkPartialDiff base compared
  else if String.eqb o sup then checkSup base compared
  else if String.eqb o supEq then checkSupEq base compared
  else if String.eqb o inf then checkInf base compared
  else if String.eqb o infEq then checkInfEq base compared
  else if String.eqb o contain then checkContain base compared
  else if String.eqb o notContain then checkNotContain base compared
  else if String.eqb o like then checkLike base compared
  else if String.eqb o notLike then checkNotLike base compared
  else false.

(** [type Filter struct { key string; op Operation; val interface{} }] *)
Record Filter : Type := mkFilter {
  key : string;
  op : Operation;
  val : any
}.

Definition Filter_check (f : Filter) (compareTo : any) : bool :=
  check (op f) (val f) compareTo.

End Evaluation.

End Filters.

(** ** Errors, panics and results

    An [error] is built by [fmt.Errorf]; the format is kept with its
    arguments instead of the rendered text. *)

(** Modelled from the spec: the [Type] constants, which are not in the
    sources.  The tag of a value is one of Object, Array, String, Number,
    True, False and Null, or one of the two tags a node carries between
    parsing and its first inspection. *)
Inductive JType : Type :=
| TypeNull
| TypeObject
| TypeArray
| TypeString
| TypeNumber
| TypeTrue
| TypeFalse
| typeRawString
| typeRawNumber.

Inductive error : Type :=
| Errorf (format : string)
| Errorf_s (format : string) (err : error)
| Errorf_q (format : string) (arg : string)
| Errorf_s_q (format : string) (err : error) (arg : string)
| Errorf_t (format : string) (arg : JType).

(** What a call does: it returns, or the Go runtime panics (index out of
    range, nil pointer dereference).  [OutOfFuel] belongs to the model
    only: the recursion bound given to a function was too small. *)
Inductive outcome (A : Type) : Type :=
| Return (r : A)
| Panic (msg : string)
| OutOfFuel.
Arguments Return {A} r.
Arguments Panic {A} msg.
Arguments OutOfFuel {A}.

Definition bind {A B : Type} (x : outcome A) (f : A -> outcome B) : outcome B :=
  match x with
  | Return r => f r
  | Panic msg => Panic msg
  | OutOfFuel => OutOfFuel
  end.

Notation "x <- c1 ;; c2" := (bind c1 (fun x => c2))
  (at level 61, c1 at next level, right associativity).

(** The call returns. *)
Definition returns {A : Type} (r : outcome A) : Prop :=
  match r with Return _ => True | _ => False end.

Definition nil_dereference : string := "invalid memory address or nil pointer dereference".
Definition index_out_of_range : string := "index out of range".

(** [l[i]] on a slice: the runtime panics when [i] is not an index. *)
Definition index {A : Type} (l : list A) (i : nat) : outcome A :=
  match nth_error l i with
  | Some x => Return x
  | None => Panic index_out_of_range
  end.

(** [m[key] = x] on a Go map with string keys, kept as an association
    list with one pair for a key. *)
Fixpoint map_set {V : Type} (m : list (string * V)) (key : string) (x : V)
  : list (string * V) :=
  match m with
  | [] => [(key, x)]
  | (k, y) :: m' =>
      if String.eqb k key then (k, x) :: m' else (k, y) :: map_set m' key x
  end.

(** ** The value tree ([value.go]) *)

Module JSON.

(** [type kv struct { k string; v *Value }] is a pair.  The type
    [Object] is not in the sources; it is modelled from the spec as the
    sequence of the pairs in insertion order. *)
Inductive Value : Type := mkValue {
  o : list (string * Value);
  a : list Value;
  s : string;
  n : float64;
  t : JType
}.

Definition Object : Type := list (string * Value).

Definition set_s (v : Value) (x : string) : Value := mkValue (o v) (a v) x (n v) (t v).
Definition set_n (v : Value) (x : float64) : Value := mkValue (o v) (a v) (s v) x (t v).
Definition set_t (v : Value) (x : JType) : Value := mkValue (o v) (a v) (s v) (n v) x.
Definition set_a (v : Value) (x : list Value) : Value := mkValue (o v) x (s v) (n v) (t v).
Definition set_o (v : Value) (x : Object) : Value := mkValue x (a v) (s v) (n v) (t v).

(** Modelled from the spec: [cache.getValue], which is not in the
    sources, hands out a freshly zeroed node. *)
Definition getValue : Value := mkValue [] [] "" f64_zero TypeNull.

Definition valueTrue : Value := mkValue [] [] "" f64_zero TypeTrue.
Definition valueFalse : Value := mkValue [] [] "" f64_zero TypeFalse.
Definition valueNull : Value := mkValue [] [] "" f64_zero TypeNull.
Definition emptyObject : Value := mkValue [] [] "" f64_zero TypeObject.
Definition emptyArray : Value := mkValue [] [] "" f64_zero TypeArray.

(** Modelled from the spec: [Object.Get], which is not in the sources;
    lookup by key returns the first match in insertion order, and nil
    when no pair has the key. *)
Fixpoint Object_Get (kvs : Object) (key : string) : option Value :=
  match kvs with
  | [] => None
  | (k, v) :: kvs' => if String.eqb k key then Some v else Object_Get kvs' key
  end.

(** *** Lazy decoding of strings *)

Definition hex_digit (c : ascii) : option Z :=
  let x := Z.of_nat (nat_of_ascii c) in
  if (48 <=? x) && (x <=? 57) then Some (x - 48)
  else if (97 <=? x) && (x <=? 102) then Some (x - 97 + 10)
  else if (65 <=? x) && (x <=? 70) then Some (x - 65 + 10)
  else None.

(** [strconv.ParseUint(xs, 16, 16)]: every byte is a hexadecimal digit,
    there is at least one, and the value fits 16 bits. *)
Fixpoint ParseUint_hex_acc (xs : string) (acc : Z) : option Z :=
  match xs with
  | EmptyString => Some acc
  | String c xs' =>
      match hex_digit c with
      | Some d =>
          let acc' := acc * 16 + d in
          if acc' <=? 65535 then ParseUint_hex_acc xs' acc' else None
      | None => None
      end
  end.

Definition ParseUint_16_16 (xs : string) : option Z :=
  match xs with
  | EmptyString => None
  | _ => ParseUint_hex_acc xs 0
  end.

Definition byte_of_Z (x : Z) : ascii := ascii_of_N (Z.to_N x).

Definition RuneError : Z := 65533. (* U+FFFD *)

(** [string(rune(x))]: the UTF-8 encoding of [x]; a surrogate half or a
    value beyond U+10FFFF is encoded as U+FFFD. *)
Definition utf8_bytes (x : Z) : string :=
  if x <=? 127 then
    String (byte_of_Z x) EmptyString
  else if x <=? 2047 then
    String (byte_of_Z (Z.lor 192 (Z.shiftr x 6)))
      (String (byte_of_Z (Z.lor 128 (Z.land x 63))) EmptyString)
  else if x <=? 65535 then
    String (byte_of_Z (Z.lor 224 (Z.shiftr x 12)))
      (String (byte_of_Z (Z.lor 128 (Z.land (Z.shiftr x 6) 63)))
         (String (byte_of_Z (Z.lor 128 (Z.land x 63))) EmptyString))
  else
    String (byte_of_Z (Z.lor 240 (Z.shiftr x 18)))
      (String (byte_of_Z (Z.lor 128 (Z.land (Z.shiftr x 12) 63)))
         (String (byte_of_Z (Z.lor 128 (Z.land (Z.shiftr x 6) 63)))
            (String (byte_of_Z (Z.lor 128 (Z.land x 63))) EmptyString))).

Definition is_surrogate (x : Z) : bool := (55296 <=? x) && (x <=? 57343).

Definition string_of_rune (x : Z) : string :=
  if (x <? 0) || (1114111 <? x) || is_surrogate x then utf8_bytes RuneError
  else utf8_bytes x.

Definition byte_string (c : ascii) : string := String c EmptyString.

(** One turn of the [switch ch] in the slow path: the bytes appended to
    [b] and the rest of [s]. *)
Definition unescape_step (ch : ascii) (str : string) : string * string :=
  if Ascii.eqb ch dquote then (byte_string dquote, str)
  else if Ascii.eqb ch backslash then (byte_string backslash, str)
  else if Ascii.eqb ch "/" then (byte_string "/", str)
  else if Ascii.eqb ch "b" then (byte_string "008", str)
  else if Ascii.eqb ch "f" then (byte_string "012", str)
  else if Ascii.eqb ch "n" then (byte_string "010", str)
  else if Ascii.eqb ch "r" then (byte_string "013", str)
  else if Ascii.eqb ch "t" then (byte_string "009", str)
  else if Ascii.eqb ch "u" then
    if len str <? 4 then (String backslash (byte_string ch), str)
    else
      let xs := take 4 str in
      match ParseUint_16_16 xs with
      | None => (String backslash (byte_string ch), str)
      | Some x => (string_of_rune x, drop 4 str)
      end
  else (String backslash (byte_string ch), str).

(** *** Unescaping in place

    [b := s2b(s)] makes [b] a slice over the bytes of [s] itself, with
    the length of [s] for capacity, and the loop appends the decoded
    text to [b] while it reads [s].  [mem] is the backing array; [s] is
    [mem[r:]]; [b] is [mem[:w]] as long as it lives in that array. *)

Inductive output : Type :=
| Alias (w : nat)        (* [b] is [mem[:w]] *)
| Moved (b : string).    (* [append] has allocated a new array for [b] *)

(** The bytes [x] stored at [mem[w:]]. *)
Definition write (mem : string) (w : nat) (x : string) : string :=
  take w mem ++ x ++ drop (w + String.length x) mem.

(** [b = append(b, x...)]: in the array while the capacity allows. *)
Definition append_b (mem : string) (b : output) (x : string) : string * output :=
  match b with
  | Alias w =>
      if Nat.leb (w + String.length x) (String.length mem)
      then (write mem w x, Alias (w + String.length x))
      else (mem, Moved (take w mem ++ x))
  | Moved b => (mem, Moved (b ++ x))
  end.

(** [b2s(b)] *)
Definition b2s (mem : string) (b : output) : string :=
  match b with
  | Alias w => take w mem
  | Moved b => b
  end.

(** The [for len(s) > 0] loop.  Every turn takes at least one byte off
    [s], so [fuel] = [len(s)] turns are enough.  The escape is read
    before anything is appended; what is left of [s] is read again from
    the array after each [append]. *)
Fixpoint unescape_loop (fuel : nat) (mem : string) (b : output) (r : nat) : string :=
  match fuel with
  | O => b2s mem b
  | S fuel' =>
      match drop r mem with
      | EmptyString => b2s mem b
      | String ch str1 =>
          let '(out, str2) := unescape_step ch str1 in
          let r := (String.length mem - String.length str2)%nat in
          let '(mem, b) := append_b mem b out in
          match IndexByte (drop r mem) backslash with
          | None =>
              let '(mem, b) := append_b mem b (drop r mem) in
              b2s mem b
          | Some i =>
              let '(mem, b) := append_b mem b (take i (drop r mem)) in
              unescape_loop fuel' mem b (r + i + 1)
          end
      end
  end.

Definition unescapeStringBestEffort (str : string) : string :=
  match IndexByte str backslash with
  | None => str
  | Some i => unescape_loop (String.length str) str (Alias i) (i + 1)
  end.

(** The same decoding with the output kept apart from the input; the
    two are proved equal below. *)
Fixpoint unescape_copy_loop (fuel : nat) (b str : string) : string :=
  match fuel with
  | O => b
  | S fuel' =>
      match str with
      | EmptyString => b
      | String ch str1 =>
          let '(out, str2) := unescape_step ch str1 in
          let b := b ++ out in
          match IndexByte str2 backslash with
          | None => b ++ str2
          | Some i => unescape_copy_loop fuel' (b ++ take i str2) (drop (S i) str2)
          end
      end
  end.

Definition unescape_copy (str : string) : string :=
  match IndexByte str backslash with
  | None => str
  | Some i => unescape_copy_loop (String.length str) (take i str) (drop (S i) str)
  end.

(** *** Lexical scanners ([parser.go], first part) *)

(** What a scanner returns: the value and the unconsumed tail, or an
    error and the tail reported with it. *)
Inductive result (A : Type) : Type :=
| Ok (x : A) (tail : string)
| Err (e : error) (tail : string).
Arguments Ok {A} x tail.
Arguments Err {A} e tail.

Definition is_ws (c : ascii) : bool :=
  Ascii.eqb c "032" || Ascii.eqb c "013" || Ascii.eqb c "010" || Ascii.eqb c "009".

Fixpoint skipWS_slow (str : string) : string :=
  match str with
  | EmptyString => EmptyString
  | String c str' => if is_ws c then skipWS_slow str' else str
  end.

Definition skipWS (str : string) : string :=
  match str with
  | EmptyString => str
  | String c _ => if Nat.ltb 32 (nat_of_ascii c) then str else skipWS_slow str
  end.

Definition is_number_char (ch : ascii) : bool :=
  let x := nat_of_ascii ch in
  (Nat.leb 48 x && Nat.leb x 57) || Ascii.eqb ch "-" || Ascii.eqb ch "."
  || Ascii.eqb ch "e" || Ascii.eqb ch "E" || Ascii.eqb ch "+".

(** The first bytes on which [parseValue] does not scan a number. *)
Definition starts_other_value (c : ascii) : bool :=
  Ascii.eqb c "{" || Ascii.eqb c "[" || Ascii.eqb c dquote
  || Ascii.eqb c "t" || Ascii.eqb c "f" || Ascii.eqb c "n".

(** The [for i := 0; i < len(s); i++] loop of [parseRawNumber]: [rest]
    is [s[i:]]. *)
Fixpoint parseRawNumber_loop (i : nat) (rest str : string) : result string :=
  match rest with
  | EmptyString => Ok str ""
  | String ch rest' =>
      if is_number_char ch then parseRawNumber_loop (S i) rest' str
      else if Nat.eqb i 0 then Err (Errorf_q "unexpected char: %q" (take 1 str)) str
      else Ok (take i str) (drop i str)
  end.

Definition parseRawNumber (str : string) : result string :=
  parseRawNumber_loop 0 str str.

Definition missing_opening_quote : string :=
  "missing opening '" ++ String dquote "'".
Definition missing_closing_quote : string :=
  "missing closing '" ++ String dquote "'".

(** [s[n-1] != '\\'], with [n > 0] and [n - 1] an index of [s]. *)
Definition not_backslash_before (str : string) (i : nat) : bool :=
  match String.get (i - 1) str with
  | Some c => negb (Ascii.eqb c backslash)
  | None => true
  end.

(** [for i > 0 && s[i-1] == '\\' { i-- }] *)
Fixpoint backslash_run_start (str : string) (i : nat) : nat :=
  match i with
  | O => O
  | S i' => if not_backslash_before str i then i else backslash_run_start str i'
  end.

(** The slow path of [parseRawString]; a turn that goes on drops at
    least one byte of [str]. *)
Fixpoint parseRawString_loop (fuel : nat) (ss str : string) (i : nat)
  : outcome (result string) :=
  match fuel with
  | O => OutOfFuel
  | S fuel' =>
      let j := backslash_run_start str (i - 1) in
      if Nat.even (i - j) then
        Return (Ok (take (String.length ss - String.length str + i) ss) (drop (S i) str))
      else
        let str := drop (S i) str in
        match IndexByte str dquote with
        | None => Return (Err (Errorf missing_closing_quote) "")
        | Some i =>
            if Nat.eqb i 0 || not_backslash_before str i then
              Return (Ok (take (String.length ss - String.length str + i) ss)
                         (drop (S i) str))
            else parseRawString_loop fuel' ss str i
        end
  end.

Definition parseRawString (str : string) : outcome (result string) :=
  match str with
  | EmptyString => Return (Err (Errorf missing_opening_quote) str)
  | String c str1 =>
      if negb (Ascii.eqb c dquote) then Return (Err (Errorf missing_opening_quote) str)
      else
        match IndexByte str1 dquote with
        | None => Return (Err (Errorf missing_closing_quote) "")
        | Some i =>
            if Nat.eqb i 0 || not_backslash_before str1 i then
              Return (Ok (take i str1) (drop (S i) str1))
            else parseRawString_loop (String.length str1) str1 str1 i
        end
  end.

(** *** The recursive-descent parser

    [fuel] bounds the number of nested calls and loop turns. *)

Definition first_is (str : string) (c : ascii) : bool :=
  match str with
  | String c' _ => Ascii.eqb c' c
  | EmptyString => false
  end.

Definition rawValue (ty : JType) (str : string) : Value :=
  set_s (set_t getValue ty) str.

Fixpoint parseValue (fuel : nat) (str : string) {struct fuel}
  : outcome (result Value) :=
  match fuel with
  | O => OutOfFuel
  | S fuel' =>
      match str with
      | EmptyString => Return (Err (Errorf "cannot parse empty string") str)
      | String c _ =>
          if Ascii.eqb c "{" then
            r <- parseObject fuel' str ;;
            match r with
            | Err err tail => Return (Err (Errorf_s "cannot parse object: %s" err) tail)
            | Ok v tail => Return (Ok v tail)
            end
          else if Ascii.eqb c "[" then
            r <- parseArray fuel' str ;;
            match r with
            | Err err tail => Return (Err (Errorf_s "cannot parse array: %s" err) tail)
            | Ok v tail => Return (Ok v tail)
            end
          else if Ascii.eqb c dquote then
            r <- parseRawString str ;;
            match r with
            | Err err tail => Return (Err (Errorf_s "cannot parse string: %s" err) tail)
            | Ok ss tail => Return (Ok (rawValue typeRawString ss) tail)
            end
          else if Ascii.eqb c "t" then
            if negb (HasPrefix str "true")
            then Return (Err (Errorf_q "unexpected value found: %q" str) str)
            else Return (Ok valueTrue (drop 4 str))
          else if Ascii.eqb c "f" then
            if negb (HasPrefix str "false")
            then Return (Err (Errorf_q "unexpected value found: %q" str) str)
            else Return (Ok valueFalse (drop 5 str))
          else if Ascii.eqb c "n" then
            if negb (HasPrefix str "null")
            then Return (Err (Errorf_q "unexpected value found: %q" str) str)
            else Return (Ok valueNull (drop 4 str))
          else
            match parseRawNumber str with
            | Err err tail => Return (Err (Errorf_s "cannot parse number: %s" err) tail)
            | Ok ns tail => Return (Ok (rawValue typeRawNumber ns) tail)
            end
      end
  end

with parseArray (fuel : nat) (str : string) {struct fuel}
  : outcome (result Value) :=
  match fuel with
  | O => OutOfFuel
  | S fuel' =>
      let str := drop 1 str in
      let str := skipWS str in
      match str with
      | EmptyString => Return (Err (Errorf "missing ']'") str)
      | String c str' =>
          if Ascii.eqb c "]" then Return (Ok emptyArray str')
          else parseArray_loop fuel' (set_t getValue TypeArray) str
      end
  end

with parseArray_loop (fuel : nat) (arr : Value) (str : string) {struct fuel}
  : outcome (result Value) :=
  match fuel with
  | O => OutOfFuel
  | S fuel' =>
      let str := skipWS str in
      r <- parseValue fuel' str ;;
      match r with
      | Err err tail => Return (Err (Errorf_s "cannot parse array value: %s" err) tail)
      | Ok v str =>
          let arr := set_a arr (a arr ++ [v])%list in
          let str := skipWS str in
          match str with
          | EmptyString => Return (Err (Errorf "unexpected end of array") str)
          | String c str' =>
              if Ascii.eqb c "," then parseArray_loop fuel' arr str'
              else if Ascii.eqb c "]" then Return (Ok arr str')
              else Return (Err (Errorf "missing ',' after array value") str)
          end
      end
  end

with parseObject (fuel : nat) (str : string) {struct fuel}
  : outcome (result Value) :=
  match fuel with
  | O => OutOfFuel
  | S fuel' =>
      let str := drop 1 str in
      let str := skipWS str in
      match str with
      | EmptyString => Return (Err (Errorf "missing '}'") str)
      | String c str' =>
          if Ascii.eqb c "}" then Return (Ok emptyObject str')
          else parseObject_loop fuel' (set_t getValue TypeObject) str
      end
  end

with parseObject_loop (fuel : nat) (obj : Value) (str : string) {struct fuel}
  : outcome (result Value) :=
  match fuel with
  | O => OutOfFuel
  | S fuel' =>
      let str := skipWS str in
      r <- parseRawString str ;;
      match r with
      | Err err tail => Return (Err (Errorf_s "cannot parse object key: %s" err) tail)
      | Ok k str =>
          let str := skipWS str in
          if negb (first_is str ":")
          then Return (Err (Errorf "missing ':' after object key") str)
          else
            let str := drop 1 str in
            let str := skipWS str in
            r <- parseValue fuel' str ;;
            match r with
            | Err err tail =>
                Return (Err (Errorf_s "cannot parse object value: %s" err) tail)
            | Ok v str =>
                let obj := set_o obj (o obj ++ [(k, v)])%list in
                let str := skipWS str in
                match str with
                | EmptyString => Return (Err (Errorf "unexpected end of object") str)
                | String c str' =>
                    if Ascii.eqb c "," then parseObject_loop fuel' obj str'
                    else if Ascii.eqb c "}" then Return (Ok obj str')
                    else Return (Err (Errorf "missing ',' after object value") str)
                end
            end
      end
  end.

(** [Parser.Parse]: the parser's buffer and cache only recycle storage,
    and are left out. *)
Definition Parse_with (fuel : nat) (str : string) : outcome (Value + error) :=
  let str := skipWS str in
  r <- parseValue fuel str ;;
  match r with
  | Err err tail =>
      Return (inr (Errorf_s_q "cannot parse JSON: %s; unparsed tail: %q" err tail))
  | Ok v tail =>
      let tail := skipWS tail in
      if 0 <? len tail then Return (inr (Errorf_q "unexpected tail: %q" tail))
      else Return (inl v)
  end.

Definition Parse (str : string) : outcome (Value + error) :=
  Parse_with (3 * String.length str + 3) str.

(** What is asked of a scanner on [str]: it returns (no panic, and the
    bound on its recursion was enough), and a value it returns leaves a
    tail shorter than [str]. *)
Definition consumes {A : Type} (str : string) (r : outcome (result A)) : Prop :=
  match r with
  | Return (Ok _ tail) => (String.length tail < String.length str)%nat
  | Return (Err _ _) => True
  | _ => False
  end.

(** The bounds that are enough on a text of [n] bytes or fewer. *)
Definition total_upto (n : nat) : Prop :=
  (forall str fuel, (String.length str <= n)%nat -> (3 * n + 1 <= fuel)%nat ->
                    consumes str (parseValue fuel str))
  /\ (forall str arr fuel, (String.length str <= n)%nat -> (3 * n + 2 <= fuel)%nat ->
                    consumes str (parseArray_loop fuel arr str))
  /\ (forall str obj fuel, (String.length str <= n)%nat -> (3 * n + 2 <= fuel)%nat ->
                    consumes str (parseObject_loop fuel obj str)).

(** *** [strconv.Atoi]

    An optional sign, then one or more decimal digits, and a value in
    the range of [int] (64 bits); anything else is an error. *)

Fixpoint decimal_acc (str : string) (acc : Z) : option Z :=
  match str with
  | EmptyString => Some acc
  | String c str' =>
      let x := Z.of_nat (nat_of_ascii c) in
      if (48 <=? x) && (x <=? 57) then decimal_acc str' (acc * 10 + (x - 48))
      else None
  end.

Definition decimal (str : string) : option Z :=
  match str with
  | EmptyString => None
  | _ => decimal_acc str 0
  end.

Definition Atoi (str : string) : option Z :=
  let '(neg, digits) :=
    match str with
    | String c str' =>
        if Ascii.eqb c "-" then (true, str')
        else if Ascii.eqb c "+" then (false, str')
        else (false, str)
    | EmptyString => (false, str)
    end in
  match decimal digits with
  | None => None
  | Some x =>
      let i := if neg then - x else x in
      if is_int64 i then Some i else None
  end.

(** *** Methods of [Value] *)

Section Methods.

(** [strconv.ParseFloat(s, 64)] of the Go library: [None] when it
    returns an error (bad syntax, or a value out of range). *)
Variable ParseFloat : string -> option float64.

(** [fmt.Sprintf("%q", s)] of the Go library. *)
Variable Quote : string -> string.

(** [GetKeys] and [splitBraces] are functions of the repository that the
    sources do not include: the plain keys and the keys with a nested
    selection of a request, and the nested selections of such a key. *)
Variable GetKeys : string -> list string * list string.
Variable splitBraces : string -> list string.

(** [func (v *Value) Type() Type] decodes in place; the node after the
    call is returned with the type. *)
Definition Value_Type (v : Value) : Value * JType :=
  match t v with
  | typeRawString =>
      let v := set_s v (unescapeStringBestEffort (s v)) in
      let v := set_t v TypeString in
      (v, t v)
  | typeRawNumber =>
      let f := match ParseFloat (s v) with
               | Some f => f
               | None => f64_zero
               end in
      let v := set_n v f in
      let v := set_t v TypeNumber in
      (v, t v)
  | _ => (v, t v)
  end.

(** [func (v *Value) Get(keys ...string) *Value]; [None] is nil. *)
Fixpoint Get_loop (v : Value) (keys : list string) : outcome (option Value) :=
  match keys with
  | [] => Return (Some v)
  | key :: keys' =>
      match t v with
      | TypeObject =>
          match Object_Get (o v) key with
          | None => Return None
          | Some v => Get_loop v keys'
          end
      | TypeArray =>
          match Atoi key with
          | None => Return None
          | Some i =>
              if (i <? 0) || (i >=? Z.of_nat (List.length (a v))) then Return None
              else v <- index (a v) (Z.to_nat i) ;; Get_loop v keys'
          end
      | _ => Return None
      end
  end.

Definition Value_Get (v : option Value) (keys : list string) : outcome (option Value) :=
  match v with
  | None => Return None
  | Some v => Get_loop v keys
  end.

Definition Value_Exists (v : option Value) (keys : list string) : outcome bool :=
  r <- Value_Get v keys ;;
  Return (match r with Some _ => true | None => false end).

Definition JType_eqb (x y : JType) : bool :=
  match x, y with
  | TypeNull, TypeNull | TypeObject, TypeObject | TypeArray, TypeArray
  | TypeString, TypeString | TypeNumber, TypeNumber | TypeTrue, TypeTrue
  | TypeFalse, TypeFalse | typeRawString, typeRawString
  | typeRawNumber, typeRawNumber => true
  | _, _ => false
  end.

(** The typed accessors; each returns the node after [Type] too. *)
Definition Value_Object (v : Value) : Value * (Object * option error) :=
  let '(v, ty) := Value_Type v in
  if negb (JType_eqb ty TypeObject)
  then (v, ([], Some (Errorf_t "value doesn't contain object; it contains %s" ty)))
  else (v, (o v, None)).

Definition Value_Array (v : Value) : Value * (list Value * option error) :=
  let '(v, ty) := Value_Type v in
  if negb (JType_eqb ty TypeArray)
  then (v, ([], Some (Errorf_t "value doesn't contain array; it contains %s" ty)))
  else (v, (a v, None)).

Definition Value_Float64 (v : Value) : Value * (float64 * option error) :=
  let '(v, ty) := Value_Type v in
  if negb (JType_eqb ty TypeNumber)
  then (v, (f64_zero, Some (Errorf_t "value doesn't contain number; it contains %s" ty)))
  else (v, (n v, None)).

(** [v.String()] on a node of type [TypeString]. *)
Definition Value_String_string (v : Value) : string := Quote (s v).

(** [strings.Split(cont, ":")[0]] *)
Definition Split_colon_first (cont : string) : string :=
  match IndexByte cont ":" with
  | None => cont
  | Some i => take i cont
  end.

(** [func (v *Value) Keep(request KeepRequest) (interface{}, error)];
    [fuel] bounds the depth of the walk.  The receiver may be nil. *)
Fixpoint Value_Keep (fuel : nat) (v : option Value) (request : string)
  {struct fuel} : outcome (any * option error) :=
  match fuel with
  | O => OutOfFuel
  | S fuel' =>
      match v with
      | None => Panic nil_dereference
      | Some v =>
          let '(v, ty) := Value_Type v in
          match ty with
          | TypeArray =>
              let '(v, (pValue, err)) := Value_Array v in
              match err with
              | Some e => Return (ANil, Some e)
              | None =>
                  (fix range (pValue : list Value) (rValues : list any) :=
                     match pValue with
                     | [] => Return (ASlice rValues, None)
                     | uValue :: pValue' =>
                         r <- Value_Keep fuel' (Some uValue) request ;;
                         let '(nValue, err) := r in
                         match err with
                         | Some e => Return (ANil, Some e)
                         | None => range pValue' (rValues ++ [nValue])%list
                         end
                     end) pValue []
              end
          | TypeObject =>
              let '(v, (pValue, err)) := Value_Object v in
              match err with
              | Some e => Return (ANil, Some e)
              | None =>
                  let '(stays, conts) := GetKeys request in
                  let range_conts :=
                    fix range_conts (conts : list string) (rValues : list (string * any)) :=
                      match conts with
                      | [] => Return (AMap rValues, None)
                      | cont :: conts' =>
                          let key := Split_colon_first cont in
                          let val := splitBraces cont in
                          val0 <- index val 0 ;;
                          r <- Value_Keep fuel' (Object_Get pValue key) val0 ;;
                          let '(x, err) := r in
                          let rValues := map_set rValues key x in
                          match err with
                          | Some e => Return (ANil, Some e)
                          | None => range_conts conts' rValues
                          end
                      end in
                  (fix range_stays (stays : list string) (rValues : list (string * any))
                       (err : option error) :=
                     match stays with
                     | [] => range_conts conts rValues
                     | stay :: stays' =>
                         let next := Object_Get pValue stay in
                         match next with
                         | None => Return (ANil, err)
                         | Some _ =>
                             r <- Value_Keep fuel' next "" ;;
                             let '(x, err) := r in
                             let rValues := map_set rValues stay x in
                             match err with
                             | Some e => Return (ANil, Some e)
                             | None => range_stays stays' rValues err
                             end
                         end
                     end) stays [] err
              end
          | TypeString => Return (AString (Value_String_string v), None)
          | TypeNumber =>
              let '(v, (f, err)) := Value_Float64 v in
              Return (AFloat64 f, err)
          | TypeFalse => Return (ABool false, None)
          | TypeTrue => Return (ABool true, None)
          | _ => Return (ANil, Some (Errorf "Type not recognized"))
          end
      end
  end.

End Methods.

End JSON.

(** ** Regular expressions ([regexp])

    The two patterns of the query compiler are kept as syntax trees and
    run by a backtracking matcher, which finds the match the Go library
    reports (leftmost, then first in the order of preference: earlier
    alternative, longer repetition).  Matching is on bytes; the patterns
    name ASCII characters only, and every negated class or dot of theirs
    stands under a repetition, so whole runes are taken.  No repetition
    of theirs has a body that matches the empty string. *)

Module Regexp.

Inductive regex : Type :=
| Bol                                             (* ^ *)
| Eol                                             (* $ *)
| Chr (c : ascii)                                 (* a literal byte *)
| Class (negated : bool) (ranges : list (ascii * ascii))
| Cat (r1 r2 : regex)
| Alt (r1 r2 : regex)
| Star (r : regex)
| Plus (r : regex)
| Opt (r : regex)
| Group (i : nat) (r : regex).                    (* capturing group i *)

Definition in_range (c : ascii) (r : ascii * ascii) : bool :=
  Nat.leb (nat_of_ascii (fst r)) (nat_of_ascii c)
  && Nat.leb (nat_of_ascii c) (nat_of_ascii (snd r)).

Definition class_matches (negated : bool) (ranges : list (ascii * ascii)) (c : ascii)
  : bool :=
  xorb negated (existsb (in_range c) ranges).

(** The submatches: [None] for a group that took no part. *)
Definition captures : Type := list (option string).

Fixpoint set_capture (caps : captures) (i : nat) (x : string) : captures :=
  match i, caps with
  | O, _ :: caps' => Some x :: caps'
  | O, [] => [Some x]
  | S i', c :: caps' => c :: set_capture caps' i' x
  | S i', [] => None :: set_capture [] i' x
  end.

Section Matcher.

Context {A : Type}.

(** [total] is the length of the whole text, [str] what is left of it. *)
Variable total : nat.

Fixpoint run (r : regex) (str : string) (caps : captures)
  (k : string -> captures -> option A) {struct r} : option A :=
  match r with
  | Bol => if Nat.eqb (String.length str) total then k str caps else None
  | Eol => match str with EmptyString => k str caps | _ => None end
  | Chr c =>
      match str with
      | String c' str' => if Ascii.eqb c' c then k str' caps else None
      | EmptyString => None
      end
  | Class negated ranges =>
      match str with
      | String c' str' =>
          if class_matches negated ranges c' then k str' caps else None
      | EmptyString => None
      end
  | Cat r1 r2 => run r1 str caps (fun str' caps' => run r2 str' caps' k)
  | Alt r1 r2 =>
      match run r1 str caps k with
      | Some x => Some x
      | None => run r2 str caps k
      end
  | Opt r1 =>
      match run r1 str caps k with
      | Some x => Some x
      | None => k str caps
      end
  | Star r1 =>
      (fix star (fuel : nat) (str : string) (caps : captures) : option A :=
         match fuel with
         | O => k str caps
         | S fuel' =>
             match run r1 str caps
                     (fun str' caps' =>
                        if Nat.ltb (String.length str') (String.length str)
                        then star fuel' str' caps' else None) with
             | Some x => Some x
             | None => k str caps
             end
         end) (S (String.length str)) str caps
  | Plus r1 =>
      run r1 str caps
        (fun str caps =>
           (fix star (fuel : nat) (str : string) (caps : captures) : option A :=
              match fuel with
              | O => k str caps
              | S fuel' =>
                  match run r1 str caps
                          (fun str' caps' =>
                             if Nat.ltb (String.length str') (String.length str)
                             then star fuel' str' caps' else None) with
                  | Some x => Some x
                  | None => k str caps
                  end
              end) (S (String.length str)) str caps)
  | Group i r1 =>
      run r1 str caps
        (fun str' caps' =>
           k str' (set_capture caps' i
                     (take (String.length str - String.length str') str)))
  end.

End Matcher.

(** A match that starts at the head of [str]: the submatches, group 0
    being the whole match, and the text after the match. *)
Definition match_here (total : nat) (r : regex) (str : string)
  : option (captures * string) :=
  run total (Group 0 r) str [] (fun str' caps => Some (caps, str')).

(** The leftmost match in [str]. *)
Fixpoint find_from (total : nat) (r : regex) (str : string)
  : option (captures * string) :=
  match match_here total r str with
  | Some m => Some m
  | None =>
      match str with
      | EmptyString => None
      | String _ str' => find_from total r str'
      end
  end.

Definition submatch (groups : nat) (caps : captures) : list string :=
  map (fun i => match nth i caps None with Some x => x | None => "" end)
      (seq 0 (S groups)).

(** [re.FindStringSubmatch(s)] for a pattern with [groups] groups; the
    empty list is nil. *)
Definition FindStringSubmatch (groups : nat) (r : regex) (str : string) : list string :=
  match find_from (String.length str) r str with
  | Some (caps, _) => submatch groups caps
  | None => []
  end.

(** [re.FindAllStringSubmatch(s, -1)]: the successive matches, each
    search starting where the last match ended.  The search ends at an
    empty match, which the pattern used with it never produces. *)
Fixpoint find_all (fuel : nat) (total groups : nat) (r : regex) (str : string)
  : list (list string) :=
  match fuel with
  | O => []
  | S fuel' =>
      match find_from total r str with
      | None => []
      | Some (caps, rest) =>
          submatch groups caps ::
          (if Nat.ltb (String.length rest) (String.length str)
           then find_all fuel' total groups r rest
           else [])
      end
  end.

Definition FindAllStringSubmatch (groups : nat) (r : regex) (str : string)
  : list (list string) :=
  find_all (S (String.length str)) (String.length str) groups r str.

End Regexp.

(** ** The query compiler ([parser.go], second part) *)

Module Query.

Import Regexp Filters.

Definition rng (lo hi : ascii) : ascii * ascii := (lo, hi).
Definition one (c : ascii) : ascii * ascii := (c, c).

(** [\s] *)
Definition space_class : regex :=
  Class false [one "009"; one "010"; one "012"; one "013"; one "032"]%char.

(** The pattern [^([a-z_]+)?(?:\(([^{\}\)\(]* )\))?{(.* )}$]
    (a blank is written after a star that stands before a parenthesis). *)
Definition cmdRegex : regex :=
  Cat Bol
 (Cat (Opt (Group 1 (Plus (Class false [rng "a" "z"; one "_"]%char))))
 (Cat (Opt (Cat (Chr "(")
           (Cat (Group 2 (Star (Class true [one "{"; one "}"; one ")"; one "("]%char)))
                (Chr ")"))))
 (Cat (Chr "{")
 (Cat (Group 3 (Star (Class true [one "010"]%char)))
 (Cat (Chr "}") Eol))))).

(** The pattern
    [(?:([a-zA-Z_-]+)\s*([><!:=]+)\s*((?:[^&\(\)\{}\sQ)]+|(?:Q[^&\(\)\{}]*Q)))\s* )+],
    where Q stands for the escaped double quote of the source. *)
Definition filterRegex : regex :=
  Plus
   (Cat (Group 1 (Plus (Class false [rng "a" "z"; rng "A" "Z"; one "_"; one "-"]%char)))
   (Cat (Star space_class)
   (Cat (Group 2 (Plus (Class false [one ">"; one "<"; one "!"; one ":"; one "="]%char)))
   (Cat (Star space_class)
   (Cat (Group 3
          (Alt (Plus (Class true [one "&"; one "("; one ")"; one "{"; one "}";
                                  one "009"; one "010"; one "012"; one "013";
                                  one "032"; one dquote; one ")"]%char))
               (Cat (Chr dquote)
               (Cat (Star (Class true [one "&"; one "("; one ")"; one "{"; one "}"]%char))
                    (Chr dquote)))))
        (Star space_class)))))).

(** [strconv.ParseInt(v, 10, 64)] reads what [strconv.Atoi] reads. *)
Definition ParseInt_10_64 (v : string) : option Z := JSON.Atoi v.

(** [type Level struct]; [next] is a map from names to levels. *)
Inductive Level : Type := mkLevel {
  filters : list Filter;
  next : list (string * Level);
  retrieve : list string
}.

Definition newLevel : Level := mkLevel [] [] [].

(** *** Runes of a string *)

Definition byte_val (c : ascii) : Z := Z.of_nat (nat_of_ascii c).

(** The size of the sequence a leading byte announces, and the range
    its second byte must lie in. *)
Definition lead_byte (b0 : Z) : option (nat * Z * Z) :=
  if (194 <=? b0) && (b0 <=? 223) then Some (2%nat, 128, 191)
  else if b0 =? 224 then Some (3%nat, 160, 191)
  else if (225 <=? b0) && (b0 <=? 236) then Some (3%nat, 128, 191)
  else if b0 =? 237 then Some (3%nat, 128, 159)
  else if (238 <=? b0) && (b0 <=? 239) then Some (3%nat, 128, 191)
  else if b0 =? 240 then Some (4%nat, 144, 191)
  else if (241 <=? b0) && (b0 <=? 243) then Some (4%nat, 128, 191)
  else if b0 =? 244 then Some (4%nat, 128, 143)
  else None.

Definition is_continuation (b : Z) : bool := (128 <=? b) && (b <=? 191).

(** [utf8.DecodeRuneInString] on a string that is not empty: the rune
    and its width; a byte that starts no valid sequence is U+FFFD of
    width 1. *)
Definition decode_rune (str : string) : Z * nat :=
  match str with
  | EmptyString => (JSON.RuneError, 0%nat)
  | String c0 str1 =>
      let b0 := byte_val c0 in
      if b0 <? 128 then (b0, 1%nat)
      else
        match lead_byte b0, str1 with
        | Some (2%nat, lo, hi), String c1 _ =>
            let b1 := byte_val c1 in
            if (b1 <? lo) || (hi <? b1) then (JSON.RuneError, 1%nat)
            else (Z.lor (Z.shiftl (Z.land b0 31) 6) (Z.land b1 63), 2%nat)
        | Some (3%nat, lo, hi), String c1 (String c2 _) =>
            let b1 := byte_val c1 in
            let b2 := byte_val c2 in
            if (b1 <? lo) || (hi <? b1) || negb (is_continuation b2)
            then (JSON.RuneError, 1%nat)
            else (Z.lor (Z.shiftl (Z.land b0 15) 12)
                    (Z.lor (Z.shiftl (Z.land b1 63) 6) (Z.land b2 63)), 3%nat)
        | Some (4%nat, lo, hi), String c1 (String c2 (String c3 _)) =>
            let b1 := byte_val c1 in
            let b2 := byte_val c2 in
            let b3 := byte_val c3 in
            if (b1 <? lo) || (hi <? b1) || negb (is_continuation b2)
               || negb (is_continuation b3)
            then (JSON.RuneError, 1%nat)
            else (Z.lor (Z.shiftl (Z.land b0 7) 18)
                    (Z.lor (Z.shiftl (Z.land b1 63) 12)
                       (Z.lor (Z.shiftl (Z.land b2 63) 6) (Z.land b3 63))), 4%nat)
        | _, _ => (JSON.RuneError, 1%nat)
        end
  end.

(** [for index, char := range line]: the byte index and the rune of
    every turn. *)
Fixpoint range_string (fuel : nat) (index : nat) (str : string) : list (nat * Z) :=
  match fuel with
  | O => []
  | S fuel' =>
      match str with
      | EmptyString => []
      | _ =>
          let '(char, width) := decode_rune str in
          (index, char) :: range_string fuel' (index + width) (drop width str)
      end
  end.

Definition range_of (line : string) : list (nat * Z) :=
  range_string (String.length line) 0 line.

(** [[]rune(line)] and [string(runes)] *)
Definition runes_of (line : string) : list Z := map snd (range_of line).

Definition string_of_runes (runes : list Z) : string :=
  fold_right (fun r acc => JSON.string_of_rune r ++ acc) "" runes.

Definition slice_bounds : string := "slice bounds out of range".

(** [runes[lo:hi]].  Go checks the bounds against the capacity, which
    is the length or more; the model checks them against the length, as
    on ASCII text, where the indices never pass it. *)
Definition slice {T : Type} (l : list T) (lo hi : nat) : outcome (list T) :=
  if Nat.ltb (List.length l) hi || Nat.ltb hi lo then Panic slice_bounds
  else Return (firstn (hi - lo) (skipn lo l)).

(** [splitComa]: [index] counts bytes of [line] and is used as an index
    into its runes; the two agree on ASCII text. *)
Fixpoint splitComa_loop (runes : list Z) (turns : list (nat * Z))
  (count : Z) (firstIndex : nat) (array : list string)
  : outcome (list string * nat) :=
  match turns with
  | [] => Return (array, firstIndex)
  | (index, char) :: turns' =>
      if char =? 123 (* '{' *) then
        splitComa_loop runes turns' (count + 1) firstIndex array
      else if char =? 125 (* '}' *) then
        splitComa_loop runes turns' (count - 1) firstIndex array
      else if char =? 44 (* ',' *) then
        if count =? 0 then
          part <- slice runes firstIndex index ;;
          splitComa_loop runes turns' count (index + 1)
            (array ++ [string_of_runes part])%list
        else splitComa_loop runes turns' count firstIndex array
      else splitComa_loop runes turns' count firstIndex array
  end.

Definition splitComa (line : string) : outcome (list string) :=
  let runes := runes_of line in
  r <- splitComa_loop runes (range_of line) 0 0%nat [] ;;
  let '(array, firstIndex) := r in
  if Nat.ltb firstIndex (String.length line) then
    part <- slice runes firstIndex (String.length line) ;;
    Return (array ++ [string_of_runes part])%list
  else Return array.

Section Compile.

Variable ParseFloat : string -> option float64.

Definition typed (v : string) : any :=
  if String.eqb v "true" then ABool true
  else if String.eqb v "false" then ABool false
  else if String.eqb v "null" then ANil
  else
    match ParseInt_10_64 v with
    | Some i => AInt64 i
    | None =>
        match ParseFloat v with
        | Some f => AFloat64 f
        | None => AString v
        end
    end.

Definition newFilter (cmd : string) : outcome (list Filter) :=
  (fix range (ms : list (list string)) (filters : list Filter) :=
     match ms with
     | [] => Return filters
     | m :: ms' =>
         m1 <- index m 1 ;;
         m2 <- index m 2 ;;
         m3 <- index m 3 ;;
         if (0 <? len m1) && (0 <? len m2) && (0 <? len m3)
         then range ms' (filters ++ [mkFilter m1 (findOperation m2) (typed m3)])%list
         else range ms' filters
     end) (FindAllStringSubmatch 3 filterRegex cmd) [].

(** [parseQuery]; a nested level is a proper part of [cmd], so
    [fuel] = [len(cmd)] + 1 calls are enough. *)
Fixpoint parseQuery (fuel : nat) (cmd : string) {struct fuel}
  : outcome (Level * string * option error) :=
  match fuel with
  | O => OutOfFuel
  | S fuel' =>
      let matches := FindStringSubmatch 3 cmdRegex cmd in
      let lvl := newLevel in
      matches2 <- index matches 2 ;;
      lvl <- (if 0 <? len matches2 then
                fs <- newFilter matches2 ;;
                Return (mkLevel (filters lvl ++ fs) (next lvl) (retrieve lvl))
              else Return lvl) ;;
      matches3 <- index matches 3 ;;
      lvl <- (if 0 <? len matches3 then
                attrs <- splitComa matches3 ;;
                (fix range (attrs : list string) (lvl : Level) :=
                   match attrs with
                   | [] => Return lvl
                   | attr :: attrs' =>
                       if ContainsAny attr "(){}" then
                         r <- parseQuery fuel' attr ;;
                         let '(newLevel, levelName, _) := r in
                         range attrs'
                           (mkLevel (filters lvl) (map_set (next lvl) levelName newLevel)
                              (retrieve lvl))
                       else
                         range attrs'
                           (mkLevel (filters lvl) (next lvl) (retrieve lvl ++ [attr]))
                   end) attrs lvl
              else Return lvl) ;;
      matches1 <- index matches 1 ;;
      Return (lvl, matches1, None)
  end.

(** [ParseQuery]: the level and the error of [parseQuery]. *)
Definition ParseQuery (cmd : string) : outcome (Level * option error) :=
  r <- parseQuery (S (String.length cmd)) cmd ;;
  let '(parser, _, err) := r in
  Return (parser, err).

Definition MustParseQuery (cmd : string) : outcome Level :=
  r <- parseQuery (S (String.length cmd)) cmd ;;
  let '(parser, _, err) := r in
  match err with
  | Some _ => Panic "error"
  | None => Return parser
  end.

End Compile.

End Query.

(** ** [strconv.ParseFloat] on number lexemes

    A lexeme of the number scanner holds the bytes [0-9 - . e E +] only.
    On such text [strconv.ParseFloat(s, 64)] reads an optional sign, a
    run of digits with at most one dot and at least one digit, and an
    optional exponent ([e] or [E], an optional sign, at least one digit);
    it fails when this is not the whole of [s], and when the value
    rounded to nearest even overflows.  The functions above take the
    library function as a parameter; this one is what they are applied
    to when a concrete lexeme is decoded. *)

Module Strconv.

Definition is_digit (c : ascii) : bool :=
  let x := nat_of_ascii c in Nat.leb 48 x && Nat.leb x 57.

Definition digit_val (c : ascii) : Z := Z.of_nat (nat_of_ascii c) - 48.

(** The digits read so far: their value as one integer, how many of
    them stand after the dot, and the two flags of [readFloat]. *)
Record mantissa : Type := mkMantissa {
  value : Z;
  fraction : Z;
  sawdot : bool;
  sawdigits : bool
}.

Fixpoint read_mantissa (str : string) (m : mantissa) : mantissa * string :=
  match str with
  | EmptyString => (m, str)
  | String c str' =>
      if Ascii.eqb c "." then
        if sawdot m then (m, str)
        else read_mantissa str' (mkMantissa (value m) (fraction m) true (sawdigits m))
      else if is_digit c then
        read_mantissa str'
          (mkMantissa (value m * 10 + digit_val c)
             (if sawdot m then fraction m + 1 else fraction m)
             (sawdot m) true)
      else (m, str)
  end.

(** The digits of the exponent; [e] stops growing once it has reached
    10000. *)
Fixpoint read_exponent (str : string) (e : Z) : Z * string :=
  match str with
  | EmptyString => (e, str)
  | String c str' =>
      if is_digit c then
        read_exponent str' (if e <? 10000 then e * 10 + digit_val c else e)
      else (e, str)
  end.

(** [num / den] rounded to nearest even. *)
Definition round_ratio (neg : bool) (num den : Z) : float64 :=
  let '(q, e, l) := SFdiv_core_binary prec64 emax64 num 0 den 0 in
  binary_round_aux prec64 emax64 neg q e l.

Definition decimal_value (neg : bool) (digits exp10 : Z) : option float64 :=
  if digits =? 0 then Some (S754_zero neg)
  else
    let f := if 0 <=? exp10 then round_ratio neg (digits * 10 ^ exp10) 1
             else round_ratio neg digits (10 ^ (- exp10)) in
    match f with
    | S754_infinity _ => None
    | _ => Some f
    end.

Definition ParseFloat (str : string) : option float64 :=
  let '(neg, str) :=
    match str with
    | String c str' =>
        if Ascii.eqb c "+" then (false, str')
        else if Ascii.eqb c "-" then (true, str')
        else (false, str)
    | EmptyString => (false, str)
    end in
  let '(m, str) := read_mantissa str (mkMantissa 0 0 false false) in
  if negb (sawdigits m) then None
  else
    match str with
    | EmptyString => decimal_value neg (value m) (- fraction m)
    | String c str' =>
        if Ascii.eqb c "e" || Ascii.eqb c "E" then
          let '(esign, str') :=
            match str' with
            | String c' str'' =>
                if Ascii.eqb c' "+" then (1, str'')
                else if Ascii.eqb c' "-" then (-1, str'')
                else (1, str')
            | EmptyString => (1, str')
            end in
          match str' with
          | String c' _ =>
              if is_digit c' then
                let '(e, rest) := read_exponent str' 0 in
                match rest with
                | EmptyString => decimal_value neg (value m) (e * esign - fraction m)
                | _ => None
                end
              else None
          | EmptyString => None
          end
        else None
    end.

End Strconv.

(** ** The contain operators as the specification describes them

    Both sides lower-cased, one layer of leading and trailing quote
    characters stripped from the actual string, then substring
    containment.  The description does not say which side must contain
    the other; [literal_in_actual] chooses. *)

Module Described.

Fixpoint strip_last_quote (str : string) : string :=
  match str with
  | EmptyString => EmptyString
  | String c EmptyString => if Ascii.eqb c dquote then EmptyString else str
  | String c str' => String c (strip_last_quote str')
  end.

Definition strip_one_layer (str : string) : string :=
  strip_last_quote
    (match str with
     | String c str' => if Ascii.eqb c dquote then str' else str
     | EmptyString => str
     end).

Definition contain (literal_in_actual : bool) (literal actual : string) : bool :=
  let l := ToLower literal in
  let a := strip_one_layer (ToLower actual) in
  if literal_in_actual then Contains a l else Contains l a.

(** The escape sequences of one letter and the byte each stands for. *)
Definition escape_table : list (ascii * ascii) :=
  [(dquote, dquote); (backslash, backslash); ("/", "/"); ("b", "008");
   ("f", "012"); ("n", "010"); ("r", "013"); ("t", "009")]%char.

(** The value of four hexadecimal digits. *)
Definition hex4 (d1 d2 d3 d4 : Z) : Z := ((d1 * 16 + d2) * 16 + d3) * 16 + d4.

(** The node a key addresses in a node: the first pair with that key in
    an object; the element at the index the key spells, in decimal, in
    an array; nothing elsewhere. *)
Definition element (v : JSON.Value) (key : string) : option JSON.Value :=
  match JSON.t v with
  | TypeObject =>
      option_map snd (find (fun kv => String.eqb (fst kv) key) (JSON.o v))
  | TypeArray =>
      match JSON.Atoi key with
      | Some i => if i <? 0 then None else nth_error (JSON.a v) (Z.to_nat i)
      | None => None
      end
  | _ => None
  end.

(** The node a path addresses, from a node that may be nil. *)
Fixpoint addressed (v : option JSON.Value) (keys : list string) : option JSON.Value :=
  match v with
  | None => None
  | Some v =>
      match keys with
      | [] => Some v
      | key :: keys' => addressed (element v key) keys'
      end
  end.

End Described.

(** ** More methods of [Value] ([value.go]) *)

Module Access.

Import JSON.

Section Methods.

Variable ParseFloat : string -> option float64.
Variable Quote : string -> string.

Local Abbreviation Type_ := (Value_Type ParseFloat).

(** The getters: [v = v.Get(keys...)], then the type is inspected.  Each
    is given with its zero value; a panic of [Get] is passed on. *)
Definition Value_GetObject (v : option Value) (keys : list string)
  : outcome (option Object) :=
  v <- Value_Get v keys ;;
  match v with
  | None => Return None
  | Some v =>
      let '(v, ty) := Type_ v in
      if negb (JType_eqb ty TypeObject) then Return None else Return (Some (o v))
  end.

Definition Value_GetArray (v : option Value) (keys : list string)
  : outcome (option (list Value)) :=
  v <- Value_Get v keys ;;
  match v with
  | None => Return None
  | Some v =>
      let '(v, ty) := Type_ v in
      if negb (JType_eqb ty TypeArray) then Return None else Return (Some (a v))
  end.

Definition Value_GetFloat64 (v : option Value) (keys : list string)
  : outcome float64 :=
  v <- Value_Get v keys ;;
  match v with
  | None => Return f64_zero
  | Some v =>
      let '(v, ty) := Type_ v in
      if negb (JType_eqb ty TypeNumber) then Return f64_zero else Return (n v)
  end.

Definition Value_GetStringBytes (v : option Value) (keys : list string)
  : outcome (option string) :=
  v <- Value_Get v keys ;;
  match v with
  | None => Return None
  | Some v =>
      let '(v, ty) := Type_ v in
      if negb (JType_eqb ty TypeString) then Return None else Return (Some (s v))
  end.

Definition Value_GetBool (v : option Value) (keys : list string) : outcome bool :=
  v <- Value_Get v keys ;;
  match v with
  | Some v =>
      let '(v, ty) := Type_ v in
      if JType_eqb ty TypeTrue then Return true else Return false
  | None => Return false
  end.

(** [StringBytes] and [Bool], beside the accessors of the projection. *)
Definition Value_StringBytes (v : Value) : Value * (option string * option error) :=
  let '(v, ty) := Type_ v in
  if negb (JType_eqb ty TypeString)
  then (v, (None, Some (Errorf_t "value doesn't contain string; it contains %s" ty)))
  else (v, (Some (s v), None)).

Definition Value_Bool (v : Value) : Value * (bool * option error) :=
  let '(v, ty) := Type_ v in
  match ty with
  | TypeTrue => (v, (true, None))
  | TypeFalse => (v, (false, None))
  | _ => (v, (false, Some (Errorf_t "value doesn't contain bool; it contains %s" ty)))
  end.

(** [func (v *Value) Search(keys ...string) ([]interface{}, error)];
    [fuel] bounds the depth of the walk, and the receiver may be nil. *)
Fixpoint Value_Search (fuel : nat) (v : option Value) (keys : list string)
  {struct fuel} : outcome (list any * option error) :=
  match fuel with
  | O => OutOfFuel
  | S fuel' =>
      match v with
      | None => Panic nil_dereference
      | Some v =>
          let '(v, ty) := Type_ v in
          match ty with
          | TypeArray =>
              let '(v, (pValue, err)) := Value_Array ParseFloat v in
              match err with
              | Some e => Return ([], Some e)
              | None =>
                  (fix range (pValue : list Value) (rValues : list any) :=
                     match pValue with
                     | [] => Return (rValues, None)
                     | uValue :: pValue' =>
                         r <- Value_Search fuel' (Some uValue) keys ;;
                         let '(nValue, err) := r in
                         match err with
                         | Some e => Return ([], Some e)
                         | None => range pValue' (rValues ++ nValue)%list
                         end
                     end) pValue []
              end
          | TypeObject =>
              let '(v, (pValue, err)) := Value_Object ParseFloat v in
              match err with
              | Some e => Return ([], Some e)
              | None =>
                  key0 <- index keys 0 ;;
                  r <- Value_Search fuel' (Object_Get pValue key0) (tl keys) ;;
                  let '(nValue, err) := r in
                  match err with
                  | Some e => Return ([], Some e)
                  | None => Return (nValue, None)
                  end
              end
          | TypeString => Return ([AString (Value_String_string Quote v)], None)
          | TypeNumber =>
              let '(v, (pValue, err)) := Value_Float64 ParseFloat v in
              match err with
              | Some e => Return ([], Some e)
              | None => Return ([AFloat64 pValue], None)
              end
          | TypeFalse => Return ([ABool false], None)
          | TypeTrue => Return ([ABool true], None)
          | _ => Return ([], Some (Errorf "Type not recognized"))
          end
      end
  end.

End Methods.

(** [NewKeepRequest]: the result of [strings.Map] is not used, and the
    request is returned as it was given. *)
Definition NewKeepRequest (req : string) : string * option error := (req, None).

(** The shape of the trees the parser builds: scalars still raw, a
    number lexeme not empty and of number bytes, and containers of such
    trees. *)
Fixpoint parsed_shape (v : Value) : bool :=
  match v with
  | mkValue vo va vs vn vt =>
      match vt with
      | TypeObject =>
          forallb (fun kv => let '(_, x) := kv in parsed_shape x) vo
          && match va with [] => true | _ => false end
      | TypeArray =>
          forallb parsed_shape va
          && match vo with [] => true | _ => false end
      | typeRawString => true
      | typeRawNumber =>
          all_bytes is_number_char vs && negb (String.eqb vs "")
      | TypeTrue | TypeFalse | TypeNull => true
      | TypeString | TypeNumber => false
      end
  end.

End Access.

(** ** What a pattern matches

    [matches total r str str'] holds when [r] can take the head of [str]
    and leave [str'], in a text of [total] bytes. *)

Inductive matches (total : nat) : Regexp.regex -> string -> string -> Prop :=
| m_bol str : String.length str = total -> matches total Regexp.Bol str str
| m_eol : matches total Regexp.Eol "" ""
| m_chr c str : matches total (Regexp.Chr c) (String c str) str
| m_class negated ranges c str :
    Regexp.class_matches negated ranges c = true ->
    matches total (Regexp.Class negated ranges) (String c str) str
| m_cat r1 r2 str str1 str2 :
    matches total r1 str str1 -> matches total r2 str1 str2 ->
    matches total (Regexp.Cat r1 r2) str str2
| m_alt_l r1 r2 str str' :
    matches total r1 str str' -> matches total (Regexp.Alt r1 r2) str str'
| m_alt_r r1 r2 str str' :
    matches total r2 str str' -> matches total (Regexp.Alt r1 r2) str str'
| m_opt_some r str str' :
    matches total r str str' -> matches total (Regexp.Opt r) str str'
| m_opt_none r str : matches total (Regexp.Opt r) str str
| m_star_nil r str : matches total (Regexp.Star r) str str
| m_star_cons r str str1 str2 :
    matches total r str str1 -> matches total (Regexp.Star r) str1 str2 ->
    matches total (Regexp.Star r) str str2
| m_plus r str str1 str2 :
    matches total r str str1 -> matches total (Regexp.Star r) str1 str2 ->
    matches total (Regexp.Plus r) str str2
| m_group i r str str' :
    matches total r str str' -> matches total (Regexp.Group i r) str str'.

(** * Properties *)

(** ** Strings and numbers *)

Lemma if_true_false (b : bool) : (if b then true else false) = b.
Proof. destruct b; reflexivity. Qed.

Lemma string_ltb_irrefl (x : string) : String.ltb x x = false.
Proof.
  unfold String.ltb.
  pose proof (String.compare_antisym x x) as H.
  destruct (String.compare x x); simpl in H; try reflexivity; discriminate.
Qed.

(** [String.ltb] is the lexical order on the bytes. *)
Lemma string_ltb_lexical (a b : ascii) (x y : string) :
  String.ltb "" (String b y) = true
  /\ String.ltb x "" = false
  /\ String.ltb (String a x) (String b y)
     = if Nat.ltb (nat_of_ascii a) (nat_of_ascii b) then true
       else if Ascii.eqb a b then String.ltb x y else false.
Proof.
  split; [reflexivity|]. split; [now destruct x|].
  unfold String.ltb. cbn [String.compare].
  unfold nat_of_ascii.
  destruct (Ascii.compare a b) eqn:E.
  - apply Ascii.compare_eq_iff in E. subst b.
    rewrite Nat.ltb_irrefl, Ascii.eqb_refl. reflexivity.
  - unfold Ascii.compare in E. rewrite Nnat.N2Nat.inj_compare in E.
    apply Nat.compare_lt_iff, Nat.ltb_lt in E. rewrite E. reflexivity.
  - unfold Ascii.compare in E. pose proof E as E'.
    rewrite Nnat.N2Nat.inj_compare in E.
    apply Nat.compare_gt_iff in E.
    replace (Nat.ltb _ _) with false by (symmetry; apply Nat.ltb_ge; lia).
    destruct (Ascii.eqb_spec a b) as [->|_]; [|reflexivity].
    rewrite N.compare_refl in E'. discriminate E'.
Qed.

Lemma shr_1_nonneg (mrs : shr_record) :
  0 <= shr_m mrs -> 0 <= shr_m (shr_1 mrs).
Proof.
  destruct mrs as [m r s0]. simpl. intros H.
  destruct m as [|p|p]; try (destruct p); simpl; lia.
Qed.

Lemma iter_shr_1_nonneg (p : positive) :
  forall mrs, 0 <= shr_m mrs -> 0 <= shr_m (iter_pos shr_1 p mrs).
Proof.
  induction p as [p IH|p IH|]; intros mrs H; simpl.
  - apply IH, IH, shr_1_nonneg, H.
  - apply IH, IH, H.
  - apply shr_1_nonneg, H.
Qed.

Lemma shr_fexp_nonneg (m e : Z) (l : location) :
  0 <= m -> 0 <= shr_m (fst (shr_fexp prec64 emax64 m e l)).
Proof.
  intros H. unfold shr_fexp, shr.
  assert (H0 : 0 <= shr_m (shr_record_of_loc m l)).
  { destruct l as [|[| |]]; simpl; exact H. }
  destruct (fexp prec64 emax64 (Zdigits2 m + e) - e); simpl; auto.
  apply iter_shr_1_nonneg, H0.
Qed.

Lemma round_nearest_even_nonneg (m : Z) (l : location) :
  0 <= m -> 0 <= round_nearest_even m l.
Proof.
  intros H. destruct l as [|[| |]]; simpl; try lia.
  destruct (Z.even m); lia.
Qed.

Lemma binary_round_aux_not_nan (sx : bool) (m e : Z) (l : location) :
  0 <= m -> binary_round_aux prec64 emax64 sx m e l <> S754_nan.
Proof.
  intros H. unfold binary_round_aux.
  pose proof (shr_fexp_nonneg m e l H) as H1.
  destruct (shr_fexp prec64 emax64 m e l) as [mrs' e'].
  simpl in H1.
  pose proof (shr_fexp_nonneg _ e' loc_Exact
                (round_nearest_even_nonneg _ (loc_of_shr_record mrs') H1)) as H2.
  destruct (shr_fexp prec64 emax64
              (round_nearest_even (shr_m mrs') (loc_of_shr_record mrs')) e' loc_Exact)
    as [mrs'' e''].
  simpl in H2.
  destruct (shr_m mrs'') as [|p|p]; try discriminate.
  - destruct (e'' <=? emax64 - prec64); discriminate.
  - lia.
Qed.

Lemma float64_of_int64_not_nan (v : Z) : float64_of_int64 v <> S754_nan.
Proof.
  unfold float64_of_int64, binary_normalize.
  destruct v as [|p|p]; try discriminate; unfold binary_round;
    destruct (shl_align p 0 (fexp prec64 emax64 (Z.pos (digits2_pos p) + 0)));
    apply binary_round_aux_not_nan; lia.
Qed.

Lemma f64_eq_refl (x : float64) : x <> S754_nan -> f64_eq x x = true.
Proof.
  intros H. unfold f64_eq, SFeqb.
  destruct x as [[|]|[|]| |[|] m e]; simpl; try reflexivity; try congruence;
    rewrite Z.compare_refl, Pos.compare_cont_refl; reflexivity.
Qed.

(** ** Filter evaluation *)

Section FilterFacts.

Import Filters.

Variable MatchString : string -> string -> option bool.

Local Abbreviation check := (Filters.check MatchString).

(** On strings [!=] is the negation of exact equality too. *)
Lemma string_partialDiff (v c : string) :
  check partialDiff (AString v) (AString c) = negb (String.eqb c v).
Proof. cbn. apply if_true_false. Qed.

(** C1 (amended): for a string literal [v] and a string actual value
    [c], the loose operator [==] tests that [v], with every quote
    character removed, is contained in [c]; the strict operator [===]
    tests that [c] and [v] are the same string, with no quote removed;
    and [!==] is the negation of [===]. *)
Theorem C1_string_equality (v c : string) :
  check partialEq (AString v) (AString c) = Contains c (RemoveAll v dquote)
  /\ check eq (AString v) (AString c) = String.eqb c v
  /\ check diff (AString v) (AString c) = negb (check eq (AString v) (AString c)).
Proof.
  repeat split; cbn; rewrite ?if_true_false; reflexivity.
Qed.

(** The filter [name==bob] with a quoted literal matches [bob smith]. *)
Example partialEq_bob :
  check partialEq (AString (quoted "bob")) (AString "bob smith") = true.
Proof. reflexivity. Qed.

(** C4: for an integer or a float literal and any actual value, [===]
    evaluates as [==] and [!==] as [!=]; an integer literal against a
    float actual value, and a float literal against an integer one, are
    compared after the integer is widened to [float64], so that an
    integer equals the float it widens to. *)
Theorem C4_numeric_strict_is_loose (i : Z) (f : float64) (compared : any) :
  check eq (AInt64 i) compared = check partialEq (AInt64 i) compared
  /\ check diff (AInt64 i) compared = check partialDiff (AInt64 i) compared
  /\ check eq (AFloat64 f) compared = check partialEq (AFloat64 f) compared
  /\ check diff (AFloat64 f) compared = check partialDiff (AFloat64 f) compared
  /\ check eq (AInt64 i) (AFloat64 f) = f64_eq f (float64_of_int64 i)
  /\ check eq (AFloat64 f) (AInt64 i) = f64_eq (float64_of_int64 i) f
  /\ check eq (AInt64 i) (AFloat64 (float64_of_int64 i)) = true
  /\ check eq (AFloat64 (float64_of_int64 i)) (AInt64 i) = true.
Proof.
  repeat split; try reflexivity; cbn; rewrite ?if_true_false;
    try reflexivity; apply f64_eq_refl, float64_of_int64_not_nan.
Qed.

(** The integer literal 18 under [>=] matches the float 18.0 and the
    integer 18 alike. *)
Example supEq_18 :
  check supEq (AInt64 18) (AFloat64 (float64_of_int64 18)) = true
  /\ check supEq (AInt64 18) (AInt64 18) = true.
Proof. split; reflexivity. Qed.


(** C9: on strings [>=] and [<=] both hold exactly when the actual
    string [c] is strictly greater than the literal [v] in byte order,
    so that neither holds between equal strings. *)
Theorem C9_string_supEq_infEq (v c : string) :
  check supEq (AString v) (AString c) = String.ltb v c
  /\ check infEq (AString v) (AString c) = String.ltb v c
  /\ check supEq (AString v) (AString v) = false
  /\ check infEq (AString v) (AString v) = false.
Proof.
  repeat split; cbn; rewrite ?if_true_false; try reflexivity;
    apply string_ltb_irrefl.
Qed.

End FilterFacts.

(** C1, as the claim states it, fails: with the literal [bob] and the
    actual string [bob smith], the literal is contained in the actual
    string, yet [===] is false and [!==] and [!=] are true. *)
Lemma C1_strict_operators_are_exact :
  let check := Filters.check (fun _ _ => None) in
  Contains "bob smith" (RemoveAll "bob" dquote) = true
  /\ check Filters.eq (AString "bob") (AString "bob smith") = false
  /\ check Filters.diff (AString "bob") (AString "bob smith") = true
  /\ check Filters.partialDiff (AString "bob") (AString "bob smith") = true
  /\ ~ (forall v c : string,
          Filters.checkEq (AString v) (AString c) = Contains c (RemoveAll v dquote)).
Proof.
  repeat split. intros H. specialize (H "bob" "bob smith").
  vm_compute in H. discriminate H.
Qed.


(** ** Slices of strings *)

Lemma append_assoc (x y z : string) : (x ++ y) ++ z = x ++ (y ++ z).
Proof. induction x as [|c x IH]; simpl; [reflexivity | now rewrite IH]. Qed.

Lemma append_empty_r (x : string) : x ++ "" = x.
Proof. induction x as [|c x IH]; simpl; [reflexivity | now rewrite IH]. Qed.

Lemma length_append (x y : string) :
  String.length (x ++ y) = (String.length x + String.length y)%nat.
Proof. induction x as [|c x IH]; simpl; [reflexivity | now rewrite IH]. Qed.

Lemma take_app (x y : string) : take (String.length x) (x ++ y) = x.
Proof. induction x as [|c x IH]; simpl; [now destruct y | now rewrite IH]. Qed.

Lemma drop_app (x y : string) : drop (String.length x) (x ++ y) = y.
Proof. induction x as [|c x IH]; simpl; [now destruct y | exact IH]. Qed.

Lemma drop_S_app (x y : string) (c : ascii) :
  drop (S (String.length x)) (x ++ String c y) = y.
Proof. induction x as [|a x IH]; simpl; [now destruct y | exact IH]. Qed.

Lemma take_drop (k : nat) (x : string) : take k x ++ drop k x = x.
Proof.
  revert x; induction k as [|k IH]; intros [|c x]; simpl; try reflexivity.
  now rewrite IH.
Qed.

Lemma length_drop (k : nat) (x : string) :
  String.length (drop k x) = (String.length x - k)%nat.
Proof.
  revert x; induction k as [|k IH]; intros [|c x]; simpl; try reflexivity.
  apply IH.
Qed.

Lemma IndexByte_lt (x : string) (c : ascii) (i : nat) :
  IndexByte x c = Some i -> (i < String.length x)%nat.
Proof.
  revert i; induction x as [|a x IH]; simpl; intros i H; [discriminate|].
  destruct (Ascii.eqb a c).
  - injection H as <-. lia.
  - destruct (IndexByte x c) as [j|]; [|discriminate].
    injection H as <-. specialize (IH j eq_refl). lia.
Qed.

Lemma IndexByte_app (x y : string) (c : ascii) :
  IndexByte x c = None ->
  IndexByte (x ++ String c y) c = Some (String.length x).
Proof.
  induction x as [|a x IH]; simpl; intros H.
  - now rewrite Ascii.eqb_refl.
  - destruct (Ascii.eqb a c); [discriminate|].
    destruct (IndexByte x c); [discriminate|].
    now rewrite IH.
Qed.

Lemma length_take (k : nat) (x : string) :
  String.length (take k x) = Nat.min k (String.length x).
Proof.
  revert x; induction k as [|k IH]; intros [|c x]; simpl; try reflexivity.
  now rewrite IH.
Qed.

Lemma take_app_ge (k : nat) (x y : string) :
  (String.length x <= k)%nat ->
  take k (x ++ y) = x ++ take (k - String.length x) y.
Proof.
  revert k; induction x as [|c x IH]; intros k H; simpl in *.
  - now rewrite Nat.sub_0_r.
  - destruct k as [|k]; [lia|]. simpl. rewrite IH by lia. reflexivity.
Qed.

Lemma drop_app_ge (k : nat) (x y : string) :
  (String.length x <= k)%nat ->
  drop k (x ++ y) = drop (k - String.length x) y.
Proof.
  revert k; induction x as [|c x IH]; intros k H; simpl in *.
  - now rewrite Nat.sub_0_r.
  - destruct k as [|k]; [lia|]. simpl. apply IH. lia.
Qed.

Lemma drop_drop (i j : nat) (x : string) : drop i (drop j x) = drop (j + i) x.
Proof.
  revert x; induction j as [|j IH]; intros x; simpl; [reflexivity|].
  destruct x as [|c x]; [now destruct i|]. apply IH.
Qed.

Lemma drop_S (k : nat) (x : string) (c : ascii) (y : string) :
  drop k x = String c y -> drop (S k) x = y.
Proof.
  intros H. replace (S k) with (k + 1)%nat by lia.
  rewrite <- drop_drop, H. reflexivity.
Qed.

(** ** Lazy decoding *)

Section DecodeFacts.

Import JSON.

Lemma unescape_step_length (ch : ascii) (str : string) :
  (String.length (snd (unescape_step ch str)) <= String.length str)%nat.
Proof.
  unfold unescape_step.
  repeat match goal with
         | |- context [if ?b then _ else _] => destruct b; cbn [snd]; try lia
         end.
  destruct (ParseUint_16_16 (take 4 str)); cbn [snd]; [|lia].
  rewrite length_drop. lia.
Qed.

Lemma unescape_copy_loop_prefix (fuel : nat) :
  forall b str, unescape_copy_loop fuel b str = b ++ unescape_copy_loop fuel "" str.
Proof.
  induction fuel as [|fuel IH]; intros b str; simpl.
  - now rewrite append_empty_r.
  - destruct str as [|ch str1]; [now rewrite append_empty_r|].
    destruct (unescape_step ch str1) as [out str2]. simpl.
    destruct (IndexByte str2 backslash) as [i|].
    + rewrite IH, (IH (out ++ take i str2)), !append_assoc. reflexivity.
    + now rewrite append_assoc.
Qed.

Lemma unescape_copy_loop_fuel (fuel1 : nat) :
  forall fuel2 b str,
    (String.length str <= fuel1)%nat -> (String.length str <= fuel2)%nat ->
    unescape_copy_loop fuel1 b str = unescape_copy_loop fuel2 b str.
Proof.
  induction fuel1 as [|fuel1 IH]; intros fuel2 b str H1 H2.
  - destruct str; simpl in H1; [|lia]. destruct fuel2; reflexivity.
  - destruct fuel2 as [|fuel2].
    + destruct str; simpl in H2; [|lia]. reflexivity.
    + cbn [unescape_copy_loop]. destruct str as [|ch str1]; [reflexivity|].
      pose proof (unescape_step_length ch str1) as Hs.
      destruct (unescape_step ch str1) as [out str2].
      cbn [snd String.length] in Hs, H1, H2.
      destruct (IndexByte str2 backslash) as [i|] eqn:Hi; [|reflexivity].
      apply IndexByte_lt in Hi.
      apply IH; rewrite length_drop; lia.
Qed.

(** One turn of the loop, then the function itself on what is left. *)
Lemma unescape_copy_loop_turn (fuel : nat) (b : string) (ch : ascii) (str : string) :
  (String.length str <= fuel)%nat ->
  unescape_copy_loop (S fuel) b (String ch str)
  = b ++ fst (unescape_step ch str)
      ++ unescape_copy (snd (unescape_step ch str)).
Proof.
  intros H. cbn [unescape_copy_loop].
  pose proof (unescape_step_length ch str) as Hs.
  destruct (unescape_step ch str) as [out str2]. cbn [snd fst] in *.
  unfold unescape_copy.
  destruct (IndexByte str2 backslash) as [i|] eqn:Hi.
  - pose proof (IndexByte_lt _ _ _ Hi) as Hlt.
    rewrite unescape_copy_loop_prefix.
    rewrite (unescape_copy_loop_prefix (String.length str2) (take i str2)).
    rewrite !append_assoc. do 3 f_equal.
    apply unescape_copy_loop_fuel; rewrite length_drop; lia.
  - now rewrite append_assoc.
Qed.

Lemma unescape_copy_plain (p : string) :
  IndexByte p backslash = None -> unescape_copy p = p.
Proof. intros H. unfold unescape_copy. now rewrite H. Qed.

(** A text with a first backslash after [p]: the escape is decoded by
    [unescape_step], and decoding goes on after it. *)
Lemma unescape_copy_escape (p : string) (ch : ascii) (str : string) :
  IndexByte p backslash = None ->
  unescape_copy (p ++ String backslash (String ch str))
  = p ++ fst (unescape_step ch str)
      ++ unescape_copy (snd (unescape_step ch str)).
Proof.
  intros H. unfold unescape_copy at 1.
  rewrite (IndexByte_app _ _ _ H), take_app, drop_S_app, length_append.
  cbn [String.length].
  replace (String.length p + S (S (String.length str)))%nat
    with (S (String.length p + S (String.length str)))%nat by lia.
  apply unescape_copy_loop_turn. lia.
Qed.

(** A backslash that ends the text is dropped. *)
Lemma unescape_copy_trailing_backslash (p : string) :
  IndexByte p backslash = None ->
  unescape_copy (p ++ String backslash "") = p.
Proof.
  intros H. unfold unescape_copy.
  rewrite (IndexByte_app _ _ _ H), take_app, drop_S_app, length_append.
  cbn [String.length].
  replace (String.length p + 1)%nat with (S (String.length p)) by lia.
  reflexivity.
Qed.

(** *** The decoding in place is the decoding into a fresh buffer *)

Lemma length_write (mem x : string) (w : nat) :
  (w + String.length x <= String.length mem)%nat ->
  String.length (write mem w x) = String.length mem.
Proof.
  intros H. unfold write.
  rewrite !length_append, length_take, length_drop. lia.
Qed.

Lemma drop_write (mem x : string) (w r : nat) :
  (w + String.length x <= r)%nat -> (w + String.length x <= String.length mem)%nat ->
  drop r (write mem w x) = drop r mem.
Proof.
  intros Hr Hm. unfold write.
  rewrite drop_app_ge by (rewrite length_take; lia).
  rewrite length_take, drop_app_ge by lia.
  rewrite drop_drop. f_equal. lia.
Qed.

Lemma take_write (mem x : string) (w : nat) :
  (w + String.length x <= String.length mem)%nat ->
  take (w + String.length x) (write mem w x) = take w mem ++ x.
Proof.
  intros Hm. unfold write.
  rewrite take_app_ge by (rewrite length_take; lia).
  rewrite length_take.
  replace (w + String.length x - Nat.min w (String.length mem))%nat
    with (String.length x) by lia.
  now rewrite take_app.
Qed.

Lemma length_string_of_rune_16 (x : Z) :
  x <= 65535 -> (String.length (string_of_rune x) <= 3)%nat.
Proof.
  intros H. unfold string_of_rune.
  destruct ((x <? 0) || (1114111 <? x) || is_surrogate x); [simpl; lia|].
  unfold utf8_bytes.
  destruct (x <=? 127); [simpl; lia|].
  destruct (x <=? 2047); [simpl; lia|].
  replace (x <=? 65535) with true by (symmetry; apply Z.leb_le; lia).
  simpl; lia.
Qed.

Lemma ParseUint_hex_acc_bound (xs : string) :
  forall acc x, ParseUint_hex_acc xs acc = Some x -> acc <= 65535 -> x <= 65535.
Proof.
  induction xs as [|c xs IH]; simpl; intros acc x H Hacc.
  - now inversion H; subst.
  - destruct (hex_digit c) as [d|]; [|discriminate].
    destruct (acc * 16 + d <=? 65535) eqn:E; [|discriminate].
    apply (IH _ _ H). now apply Z.leb_le.
Qed.

(** A turn appends no more than it has read: two bytes for the one
    after the backslash, three for that byte and the four digits. *)
Lemma unescape_step_shape (ch : ascii) (str : string) :
  (snd (unescape_step ch str) = str
   /\ (String.length (fst (unescape_step ch str)) <= 2)%nat)
  \/ (snd (unescape_step ch str) = drop 4 str
      /\ (4 <= String.length str)%nat
      /\ (String.length (fst (unescape_step ch str)) <= 3)%nat).
Proof.
  unfold unescape_step.
  repeat match goal with
         | |- context [if Ascii.eqb ?a ?b then _ else _] =>
             destruct (Ascii.eqb a b); [left; split; [reflexivity|simpl; lia]|]
         end.
  destruct (Ascii.eqb ch "u").
  - destruct (len str <? 4) eqn:Hlen; [left; split; [reflexivity|simpl; lia]|].
    destruct (ParseUint_16_16 (take 4 str)) as [x|] eqn:Hx;
      [|left; split; [reflexivity|simpl; lia]].
    right. cbn [fst snd]. split; [reflexivity|]. split.
    + apply Z.ltb_ge in Hlen. unfold len in Hlen. lia.
    + apply length_string_of_rune_16.
      unfold ParseUint_16_16 in Hx. destruct (take 4 str); [discriminate|].
      apply (ParseUint_hex_acc_bound _ _ _ Hx). lia.
  - left; split; [reflexivity|simpl; lia].
Qed.

Lemma unescape_loop_copy (fuel : nat) :
  forall (mem : string) (w r : nat),
    (w + 1 <= r)%nat -> (r <= String.length mem)%nat ->
    unescape_loop fuel mem (Alias w) r
    = unescape_copy_loop fuel (take w mem) (drop r mem).
Proof.
  induction fuel as [|fuel IH]; intros mem w r Hw Hr; [reflexivity|].
  cbn [unescape_loop unescape_copy_loop].
  destruct (drop r mem) as [|ch str1] eqn:Hd; [reflexivity|].
  pose proof (length_drop r mem) as Hlen. rewrite Hd in Hlen.
  cbn [String.length] in Hlen.
  pose proof (drop_S _ _ _ _ Hd) as Hd1.
  pose proof (unescape_step_shape ch str1) as Hshape.
  destruct (unescape_step ch str1) as [out str2]. cbn [fst snd] in Hshape.
  set (r2 := (String.length mem - String.length str2)%nat).
  assert (H2 : drop r2 mem = str2 /\ (w + String.length out <= r2)%nat
               /\ (r2 + String.length str2 = String.length mem)%nat).
  { subst r2. destruct Hshape as [[-> Ho]|(-> & H4 & Ho)].
    - replace (String.length mem - String.length str1)%nat with (S r) by lia.
      split; [exact Hd1|lia].
    - rewrite length_drop.
      replace (String.length mem - (String.length str1 - 4))%nat
        with (S r + 4)%nat by lia.
      rewrite <- Hd1, drop_drop. split; [reflexivity|].
      rewrite length_drop. lia. }
  destruct H2 as (Hr2 & Hwr & Hsum). clearbody r2.
  unfold append_b at 1.
  replace (Nat.leb (w + String.length out) (String.length mem)) with true
    by (symmetry; apply Nat.leb_le; lia).
  assert (Hm1 : String.length (write mem w out) = String.length mem)
    by (apply length_write; lia).
  assert (Hd2 : drop r2 (write mem w out) = str2)
    by (rewrite drop_write by lia; exact Hr2).
  assert (Ht2 : take (w + String.length out) (write mem w out) = take w mem ++ out)
    by (apply take_write; lia).
  rewrite Hd2.
  destruct (IndexByte str2 backslash) as [i|] eqn:Hi.
  - apply IndexByte_lt in Hi.
    assert (Hx : String.length (take i str2) = i) by (rewrite length_take; lia).
    unfold append_b. rewrite Hx, Hm1.
    replace (Nat.leb (w + String.length out + i) (String.length mem)) with true
      by (symmetry; apply Nat.leb_le; lia).
    rewrite IH; [|lia|rewrite length_write; lia].
    rewrite <- Hx at 1. rewrite take_write by lia.
    rewrite drop_write by lia.
    rewrite Ht2. f_equal.
    replace (r2 + i + 1)%nat with (r2 + S i)%nat by lia.
    rewrite <- drop_drop, Hd2. reflexivity.
  - unfold append_b. rewrite Hm1.
    replace (Nat.leb (w + String.length out + String.length str2) (String.length mem))
      with true by (symmetry; apply Nat.leb_le; lia).
    cbn [b2s]. rewrite take_write by lia. rewrite Ht2. reflexivity.
Qed.

(** Writing the decoded text over the raw text does not disturb what is
    still to be read. *)
Lemma unescape_in_place (str : string) :
  unescapeStringBestEffort str = unescape_copy str.
Proof.
  unfold unescapeStringBestEffort, unescape_copy.
  destruct (IndexByte str backslash) as [i|] eqn:Hi; [|reflexivity].
  apply IndexByte_lt in Hi.
  rewrite unescape_loop_copy by lia.
  now rewrite Nat.add_1_r.
Qed.

Lemma unescape_plain (p : string) :
  IndexByte p backslash = None -> unescapeStringBestEffort p = p.
Proof. rewrite unescape_in_place. apply unescape_copy_plain. Qed.

(** A text with a first backslash after [p]: the escape is decoded by
    [unescape_step], and decoding goes on after it. *)
Lemma unescape_escape (p : string) (ch : ascii) (str : string) :
  IndexByte p backslash = None ->
  unescapeStringBestEffort (p ++ String backslash (String ch str))
  = p ++ fst (unescape_step ch str)
      ++ unescapeStringBestEffort (snd (unescape_step ch str)).
Proof. rewrite !unescape_in_place. apply unescape_copy_escape. Qed.

(** A backslash that ends the text is dropped. *)
Lemma unescape_trailing_backslash (p : string) :
  IndexByte p backslash = None ->
  unescapeStringBestEffort (p ++ String backslash "") = p.
Proof. rewrite unescape_in_place. apply unescape_copy_trailing_backslash. Qed.

Lemma hex_digit_range (c : ascii) (d : Z) :
  hex_digit c = Some d -> 0 <= d <= 15.
Proof.
  unfold hex_digit. intros H.
  repeat match type of H with
         | context [if ?b then _ else _] => destruct b eqn:?
         end; inversion H; subst; lia.
Qed.

Lemma ParseUint_four (c1 c2 c3 c4 : ascii) (d1 d2 d3 d4 : Z) :
  hex_digit c1 = Some d1 -> hex_digit c2 = Some d2 ->
  hex_digit c3 = Some d3 -> hex_digit c4 = Some d4 ->
  ParseUint_16_16 (String c1 (String c2 (String c3 (String c4 ""))))
  = Some (Described.hex4 d1 d2 d3 d4).
Proof.
  intros H1 H2 H3 H4.
  pose proof (hex_digit_range _ _ H1). pose proof (hex_digit_range _ _ H2).
  pose proof (hex_digit_range _ _ H3). pose proof (hex_digit_range _ _ H4).
  unfold ParseUint_16_16, ParseUint_hex_acc, Described.hex4.
  rewrite H1.
  replace (0 * 16 + d1 <=? 65535) with true by (symmetry; apply Z.leb_le; lia).
  rewrite H2.
  replace ((0 * 16 + d1) * 16 + d2 <=? 65535) with true
    by (symmetry; apply Z.leb_le; lia).
  rewrite H3.
  replace (((0 * 16 + d1) * 16 + d2) * 16 + d3 <=? 65535) with true
    by (symmetry; apply Z.leb_le; lia).
  rewrite H4.
  replace ((((0 * 16 + d1) * 16 + d2) * 16 + d3) * 16 + d4 <=? 65535) with true
    by (symmetry; apply Z.leb_le; lia).
  reflexivity.
Qed.

Lemma ParseUint_not_hex (c1 c2 c3 c4 : ascii) :
  hex_digit c1 = None \/ hex_digit c2 = None
  \/ hex_digit c3 = None \/ hex_digit c4 = None ->
  ParseUint_16_16 (String c1 (String c2 (String c3 (String c4 "")))) = None.
Proof.
  intros H. unfold ParseUint_16_16, ParseUint_hex_acc.
  destruct (hex_digit c1) as [d1|] eqn:H1; [|reflexivity].
  destruct (_ <=? 65535); [|reflexivity].
  destruct (hex_digit c2) as [d2|] eqn:H2; [|reflexivity].
  destruct (_ <=? 65535); [|reflexivity].
  destruct (hex_digit c3) as [d3|] eqn:H3; [|reflexivity].
  destruct (_ <=? 65535); [|reflexivity].
  destruct (hex_digit c4) as [d4|] eqn:H4; [|reflexivity].
  destruct H as [H|[H|[H|H]]]; discriminate H.
Qed.

Lemma string_of_rune_16 (x : Z) :
  0 <= x <= 65535 ->
  string_of_rune x = utf8_bytes (if is_surrogate x then RuneError else x).
Proof.
  intros H. unfold string_of_rune.
  replace (x <? 0) with false by (symmetry; apply Z.ltb_ge; lia).
  replace (1114111 <? x) with false by (symmetry; apply Z.ltb_ge; lia).
  cbn [orb]. destruct (is_surrogate x); reflexivity.
Qed.

Lemma hex4_range (d1 d2 d3 d4 : Z) :
  0 <= d1 <= 15 -> 0 <= d2 <= 15 -> 0 <= d3 <= 15 -> 0 <= d4 <= 15 ->
  0 <= Described.hex4 d1 d2 d3 d4 <= 65535.
Proof. unfold Described.hex4. lia. Qed.

Lemma len_four (c1 c2 c3 c4 : ascii) (rest : string) :
  (len (String c1 (String c2 (String c3 (String c4 rest)))) <? 4) = false.
Proof. apply Z.ltb_ge. unfold len. cbn [String.length]. lia. Qed.

(** C7, as the claim states it, fails on the surrogate halves: the
    escape [\ud800] is four hexadecimal digits, and the decoded text is
    the encoding of U+FFFD, not of the code point D800. *)
Lemma C7_surrogate_escape_is_replaced :
  ~ (forall (c1 c2 c3 c4 : ascii) (d1 d2 d3 d4 : Z),
        hex_digit c1 = Some d1 -> hex_digit c2 = Some d2 ->
        hex_digit c3 = Some d3 -> hex_digit c4 = Some d4 ->
        unescapeStringBestEffort
          (String backslash (String "u" (String c1 (String c2 (String c3 (String c4 ""))))))
        = utf8_bytes (Described.hex4 d1 d2 d3 d4))
  /\ unescapeStringBestEffort "\ud800" = utf8_bytes RuneError
  /\ fst (Query.decode_rune (unescapeStringBestEffort "\ud800")) <> 55296.
Proof.
  split; [|split].
  - intros H.
    specialize (H "d" "8" "0" "0" 13 8 0 0 eq_refl eq_refl eq_refl eq_refl)%char.
    vm_compute in H. discriminate H.
  - reflexivity.
  - vm_compute. discriminate.
Qed.

(** C7 (amended): in a raw string whose first backslash stands after
    [p], an escape of the table is replaced by the byte it stands for;
    [\u] with four hexadecimal digits by the UTF-8 encoding of their
    value, or of U+FFFD when the value is a surrogate half; a [\u] with
    fewer than four bytes after it or with a byte that is no hexadecimal
    digit among the four, and a backslash before any other byte, are
    copied as they are; decoding goes on after the escape in each case,
    and no error is reported.  The text [\q] decodes to [\q]. *)
Theorem C7_unescape (p rest : string) :
  IndexByte p backslash = None ->
  unescapeStringBestEffort p = p
  /\ (forall ch d : ascii, In (ch, d) Described.escape_table ->
        unescapeStringBestEffort (p ++ String backslash (String ch rest))
        = p ++ String d (unescapeStringBestEffort rest))
  /\ (forall (c1 c2 c3 c4 : ascii) (d1 d2 d3 d4 : Z),
        hex_digit c1 = Some d1 -> hex_digit c2 = Some d2 ->
        hex_digit c3 = Some d3 -> hex_digit c4 = Some d4 ->
        unescapeStringBestEffort
          (p ++ String backslash
                  (String "u" (String c1 (String c2 (String c3 (String c4 rest))))))
        = p ++ utf8_bytes (if is_surrogate (Described.hex4 d1 d2 d3 d4)
                           then RuneError else Described.hex4 d1 d2 d3 d4)
            ++ unescapeStringBestEffort rest)
  /\ ((String.length rest < 4)%nat ->
        unescapeStringBestEffort (p ++ String backslash (String "u" rest))
        = p ++ String backslash (String "u" (unescapeStringBestEffort rest)))
  /\ (forall c1 c2 c3 c4 : ascii,
        hex_digit c1 = None \/ hex_digit c2 = None
        \/ hex_digit c3 = None \/ hex_digit c4 = None ->
        unescapeStringBestEffort
          (p ++ String backslash
                  (String "u" (String c1 (String c2 (String c3 (String c4 rest))))))
        = p ++ String backslash
                 (String "u" (unescapeStringBestEffort
                                (String c1 (String c2 (String c3 (String c4 rest)))))))
  /\ (forall ch : ascii,
        ch <> "u"%char -> (forall d, ~ In (ch, d) Described.escape_table) ->
        unescapeStringBestEffort (p ++ String backslash (String ch rest))
        = p ++ String backslash (String ch (unescapeStringBestEffort rest)))
  /\ unescapeStringBestEffort "\q" = "\q".
Proof.
  intros Hp. split; [|split; [|split; [|split; [|split; [|split]]]]].
  - apply unescape_plain, Hp.
  - intros ch d Hin. rewrite (unescape_escape _ _ _ Hp).
    simpl in Hin.
    repeat (destruct Hin as [Hin|Hin]; [inversion Hin; subst; reflexivity|]).
    contradiction.
  - intros c1 c2 c3 c4 d1 d2 d3 d4 H1 H2 H3 H4.
    rewrite (unescape_escape _ _ _ Hp).
    unfold unescape_step. cbn [Ascii.eqb Bool.eqb].
    rewrite len_four. cbn [take].
    rewrite (ParseUint_four _ _ _ _ _ _ _ _ H1 H2 H3 H4). cbn [fst snd drop].
    rewrite string_of_rune_16; [reflexivity|].
    apply hex4_range; eapply hex_digit_range; eassumption.
  - intros Hlen. rewrite (unescape_escape _ _ _ Hp).
    unfold unescape_step. cbn [Ascii.eqb Bool.eqb].
    replace (len rest <? 4) with true
      by (symmetry; apply Z.ltb_lt; unfold len; lia).
    reflexivity.
  - intros c1 c2 c3 c4 H. rewrite (unescape_escape _ _ _ Hp).
    unfold unescape_step. cbn [Ascii.eqb Bool.eqb].
    rewrite len_four. cbn [take].
    rewrite (ParseUint_not_hex _ _ _ _ H). reflexivity.
  - intros ch Hu Htab. rewrite (unescape_escape _ _ _ Hp).
    unfold unescape_step.
    repeat match goal with
           | |- context [Ascii.eqb ch ?x] =>
               destruct (Ascii.eqb_spec ch x) as [->|_];
               [first [ now elim Hu
                      | exfalso; eapply Htab; simpl; eauto 10 ]|]
           end.
    reflexivity.
  - reflexivity.
Qed.

(** C7 at the text [a\nb]: it decodes to [a], a line feed and
    [b]. *)
Lemma C7_unescape_witness :
  IndexByte "a" backslash = None
  /\ unescapeStringBestEffort "a\nb" = String "a" (String "010" "b").
Proof.
  split; [reflexivity|].
  exact (proj1 (proj2 (C7_unescape "a" "b" eq_refl)) "n"%char "010"%char
           (or_intror (or_intror (or_intror (or_intror (or_intror (or_introl eq_refl))))))).
Defined.

(** The escapes of the specification's example. *)
Example unescape_coverage :
  unescapeStringBestEffort
    ("a\" ++ String dquote "b\\c\/d\be\ff\ng\rh\ti\u0041")
  = "a" ++ String dquote "b\c/d" ++ String "008" "e" ++ String "012" "f"
    ++ String "010" "g" ++ String "013" "h" ++ String "009" "iA".
Proof. reflexivity. Qed.

(** Malformed escapes: a truncated [\u], digits that are not
    hexadecimal, an unknown letter. *)
Example unescape_malformed :
  unescapeStringBestEffort "\u12" = "\u12"
  /\ unescapeStringBestEffort "\u12G4z" = "\u12G4z"
  /\ unescapeStringBestEffort "x\qy" = "x\qy".
Proof. repeat split; reflexivity. Qed.

End DecodeFacts.

(** ** Type inspection *)

Section TypeFacts.

Import JSON.

Variable ParseFloat : string -> option float64.

Local Abbreviation Type_ := (Value_Type ParseFloat).

(** On a decoded node the inspection changes nothing. *)
Lemma Type_decoded (v : Value) :
  t v <> typeRawString -> t v <> typeRawNumber -> Type_ v = (v, t v).
Proof.
  intros H1 H2. unfold Value_Type. destruct (t v); try reflexivity; contradiction.
Qed.

(** C6: the first inspection takes a raw tag to its decoded tag and
    stores the decoded content; the tag it leaves is never a raw one; and
    any number of further inspections return that tag and leave the node
    as the first one left it, the text of a string not being unescaped
    again. *)
Theorem C6_Type_decodes_once (v : Value) :
  let v' := fst (Type_ v) in
  t v' = match t v with
         | typeRawString => TypeString
         | typeRawNumber => TypeNumber
         | ty => ty
         end
  /\ s v' = match t v with
            | typeRawString => unescapeStringBestEffort (s v)
            | _ => s v
            end
  /\ n v' = match t v with
            | typeRawNumber =>
                match ParseFloat (s v) with Some f => f | None => f64_zero end
            | _ => n v
            end
  /\ snd (Type_ v) = t v'
  /\ t v' <> typeRawString /\ t v' <> typeRawNumber
  /\ forall k : nat,
       Nat.iter k (fun w => fst (Type_ w)) v' = v'
       /\ Type_ (Nat.iter k (fun w => fst (Type_ w)) v') = (v', t v').
Proof.
  assert (Hfix : forall w, t w <> typeRawString -> t w <> typeRawNumber ->
                           forall k, Nat.iter k (fun w => fst (Type_ w)) w = w).
  { intros w H1 H2 k. induction k as [|k IH]; simpl; [reflexivity|].
    rewrite IH, Type_decoded; auto. }
  destruct v as [vo va vs vn vt].
  destruct vt; cbn -[unescapeStringBestEffort];
    repeat split; try discriminate; try reflexivity;
    try (apply Hfix; discriminate);
    rewrite Hfix by discriminate; reflexivity.
Qed.

(** The raw text of two backslashes and [n] decodes to a backslash and
    [n]; a second inspection keeps that text, where unescaping it again
    would give a line feed. *)
Example Type_does_not_decode_twice :
  let v := rawValue typeRawString "\\n" in
  let v1 := fst (Type_ v) in
  let v2 := fst (Type_ v1) in
  s v1 = "\n" /\ s v2 = "\n" /\ t v2 = TypeString
  /\ unescapeStringBestEffort (s v1) = String "010" "".
Proof. repeat split. Qed.

End TypeFacts.

(** ** Number lexing *)

Section NumberFacts.

Import JSON.

Lemma parseRawNumber_loop_run (run : string) :
  forall (pre rest : string),
    all_bytes is_number_char run = true ->
    (forall c rest', rest = String c rest' -> is_number_char c = false) ->
    (0 < String.length pre + String.length run)%nat ->
    parseRawNumber_loop (String.length pre) (run ++ rest) (pre ++ run ++ rest)
    = Ok (pre ++ run) rest.
Proof.
  induction run as [|c run IH]; intros pre rest Hall Hrest Hlen.
  - cbn [append String.length] in *. rewrite append_empty_r.
    destruct rest as [|c rest'].
    + cbn [parseRawNumber_loop]. now rewrite append_empty_r.
    + cbn [parseRawNumber_loop]. rewrite (Hrest c rest' eq_refl).
      destruct (String.length pre) eqn:Hp; [lia|].
      cbn [Nat.eqb]. rewrite <- Hp, take_app, drop_app. reflexivity.
  - cbn [all_bytes] in Hall. apply andb_prop in Hall as [Hc Hall].
    cbn [append parseRawNumber_loop]. rewrite Hc.
    specialize (IH (pre ++ String c "") rest Hall Hrest).
    rewrite length_append in IH. cbn [String.length] in IH.
    replace (String.length pre + 1)%nat with (S (String.length pre)) in IH by lia.
    rewrite !append_assoc in IH. cbn [append] in IH.
    apply IH. lia.
Qed.

Lemma number_char_is_no_other_value (c : ascii) :
  is_number_char c = true -> starts_other_value c = false.
Proof.
  intros H. unfold starts_other_value.
  repeat match goal with
         | |- context [Ascii.eqb c ?x] =>
             destruct (Ascii.eqb_spec c x) as [->|_];
             [vm_compute in H; discriminate H|]
         end.
  reflexivity.
Qed.

Lemma parseValue_number (fuel : nat) (c : ascii) (str : string) :
  starts_other_value c = false ->
  parseValue (S fuel) (String c str)
  = match parseRawNumber (String c str) with
    | Err err tail => Return (Err (Errorf_s "cannot parse number: %s" err) tail)
    | Ok ns tail => Return (Ok (rawValue typeRawNumber ns) tail)
    end.
Proof.
  unfold starts_other_value. intros H.
  repeat (apply orb_false_elim in H as [H ?]).
  cbn [parseValue].
  repeat match goal with
         | E : Ascii.eqb c ?x = false |- _ => rewrite E; clear E
         end.
  reflexivity.
Qed.

Variable ParseFloat : string -> option float64.

(** C8: a run of one or more of the bytes [0-9 - . e E +], up to the end
    of the text or to a byte that is not one of them, is the lexeme, with
    no check of the number grammar, and [parseValue] makes a raw number
    of it; a text that starts with another byte (and no other kind of
    value), or an empty text, is a parse error; and the first inspection
    of the raw number stores the float that [ParseFloat] reads, or zero
    when [ParseFloat] fails, with the type [TypeNumber] and no error. *)
Theorem C8_number_lexing (run rest : string) (c : ascii) (tail : string) (fuel : nat) :
  run <> "" ->
  all_bytes is_number_char run = true ->
  (forall c' rest', rest = String c' rest' -> is_number_char c' = false) ->
  is_number_char c = false ->
  starts_other_value c = false ->
  parseRawNumber (run ++ rest) = Ok run rest
  /\ parseValue (S fuel) (run ++ rest) = Return (Ok (rawValue typeRawNumber run) rest)
  /\ parseRawNumber (String c tail)
     = Err (Errorf_q "unexpected char: %q" (String c "")) (String c tail)
  /\ parseValue (S fuel) (String c tail)
     = Return (Err (Errorf_s "cannot parse number: %s"
                      (Errorf_q "unexpected char: %q" (String c "")))
                   (String c tail))
  /\ parseValue (S fuel) "" = Return (Err (Errorf "cannot parse empty string") "")
  /\ Value_Type ParseFloat (rawValue typeRawNumber run)
     = (set_t (set_n (rawValue typeRawNumber run)
                 (match ParseFloat run with Some f => f | None => f64_zero end))
          TypeNumber,
        TypeNumber)
  /\ (ParseFloat run = None ->
      n (fst (Value_Type ParseFloat (rawValue typeRawNumber run))) = f64_zero).
Proof.
  intros Hne Hall Hrest Hc Hother.
  assert (Hrun : parseRawNumber (run ++ rest) = Ok run rest).
  { unfold parseRawNumber.
    apply (parseRawNumber_loop_run run "" rest Hall Hrest).
    destruct run; [contradiction|cbn; lia]. }
  assert (Hbad : parseRawNumber (String c tail)
                 = Err (Errorf_q "unexpected char: %q" (String c "")) (String c tail)).
  { unfold parseRawNumber. cbn [parseRawNumber_loop]. rewrite Hc. reflexivity. }
  split; [exact Hrun|]. split.
  { destruct run as [|c0 run']; [contradiction|].
    cbn [all_bytes] in Hall. apply andb_prop in Hall as [Hc0 _].
    change (String c0 run' ++ rest) with (String c0 (run' ++ rest)) in *.
    rewrite (parseValue_number _ _ _ (number_char_is_no_other_value _ Hc0)).
    rewrite Hrun. reflexivity. }
  split; [exact Hbad|]. split.
  { rewrite (parseValue_number _ _ _ Hother), Hbad. reflexivity. }
  split; [reflexivity|]. split; [reflexivity|].
  intros Hpf. cbn. rewrite Hpf. reflexivity.
Qed.

End NumberFacts.

(** C8 at the text [--1,2]], with the parser of number lexemes:
    [--1] is lexed, and decodes to zero. *)
Lemma C8_number_lexing_witness :
  JSON.parseValue 1 "--1,2]" = Return (JSON.Ok (JSON.rawValue typeRawNumber "--1") ",2]")
  /\ JSON.parseValue 1 "x" =
       Return (JSON.Err (Errorf_s "cannot parse number: %s"
                           (Errorf_q "unexpected char: %q" "x")) "x")
  /\ Strconv.ParseFloat "--1" = None
  /\ JSON.n (fst (JSON.Value_Type Strconv.ParseFloat (JSON.rawValue typeRawNumber "--1")))
     = f64_zero.
Proof.
  pose proof (C8_number_lexing Strconv.ParseFloat "--1" ",2]" "x"%char "" 0) as H.
  assert (Hrest : forall c' rest',
             ",2]" = String c' rest' -> JSON.is_number_char c' = false).
  { intros c' rest' E. injection E as <- _. reflexivity. }
  specialize (H ltac:(discriminate) eq_refl Hrest eq_refl eq_refl).
  destruct H as (_ & H2 & _ & H4 & _ & _ & H7).
  split; [exact H2|]. split; [exact H4|]. split; [reflexivity|].
  exact (H7 eq_refl).
Defined.

(** Lexemes that are no numbers, and lexemes that are. *)
Example ParseFloat_lexemes :
  Strconv.ParseFloat "--1" = None
  /\ Strconv.ParseFloat "1.2.3" = None
  /\ Strconv.ParseFloat "e5" = None
  /\ Strconv.ParseFloat "18" = Some (float64_of_int64 18)
  /\ Strconv.ParseFloat "18.0" = Some (float64_of_int64 18)
  /\ Strconv.ParseFloat "-1.5e3" = Some (float64_of_int64 (-1500)).
Proof. repeat split; reflexivity. Qed.

(** ** The parser returns *)

Section ParserFacts.

Import JSON.

Lemma skipWS_slow_length (str : string) :
  (String.length (skipWS_slow str) <= String.length str)%nat.
Proof.
  induction str as [|c str IH]; simpl; [lia|].
  destruct (is_ws c); simpl; lia.
Qed.

Lemma skipWS_length (str : string) :
  (String.length (skipWS str) <= String.length str)%nat.
Proof.
  destruct str as [|c str]; [simpl; lia|].
  unfold skipWS. destruct (Nat.ltb 32 (nat_of_ascii c)); [lia|].
  apply skipWS_slow_length.
Qed.

Lemma parseRawString_loop_consumes (fuel : nat) :
  forall ss str i,
    (i < String.length str)%nat -> (String.length str <= fuel)%nat ->
    consumes str (parseRawString_loop fuel ss str i).
Proof.
  induction fuel as [|fuel IH]; intros ss str i Hi Hf; [lia|].
  cbn [parseRawString_loop].
  destruct (Nat.even _).
  - cbn [consumes]. rewrite length_drop. lia.
  - destruct (IndexByte (drop (S i) str) dquote) as [j|] eqn:Hj; [|exact I].
    apply IndexByte_lt in Hj. pose proof Hj as Hj'. rewrite length_drop in Hj'.
    destruct (Nat.eqb j 0 || not_backslash_before (drop (S i) str) j).
    + cbn [consumes]. rewrite !length_drop. lia.
    + specialize (IH ss (drop (S i) str) j Hj).
      rewrite length_drop in IH. specialize (IH ltac:(lia)).
      unfold consumes in *.
      destruct (parseRawString_loop fuel ss (drop (S i) str) j) as [[k tail|e tail]| |];
        auto. rewrite length_drop in IH. lia.
Qed.

Lemma parseRawString_consumes (str : string) :
  consumes str (parseRawString str).
Proof.
  unfold parseRawString. destruct str as [|c str1]; [exact I|].
  destruct (negb (Ascii.eqb c dquote)); [exact I|].
  destruct (IndexByte str1 dquote) as [i|] eqn:Hi; [|exact I].
  apply IndexByte_lt in Hi.
  destruct (Nat.eqb i 0 || not_backslash_before str1 i).
  - cbn [consumes String.length]. rewrite length_drop. lia.
  - pose proof (parseRawString_loop_consumes (String.length str1) str1 str1 i Hi
                  (le_n _)) as H.
    unfold consumes in *.
    destruct (parseRawString_loop _ _ _ _) as [[k tail|e tail]| |]; auto.
    cbn. lia.
Qed.

Lemma parseRawNumber_loop_consumes (rest : string) :
  forall i str,
    (i + String.length rest = String.length str)%nat ->
    match parseRawNumber_loop i rest str with
    | Ok _ tail => (0 < i + String.length rest)%nat -> (String.length tail < String.length str)%nat
    | Err _ _ => True
    end.
Proof.
  induction rest as [|ch rest IH]; intros i str H.
  - cbn. lia.
  - cbn [parseRawNumber_loop]. destruct (is_number_char ch).
    + specialize (IH (S i) str). cbn [String.length] in H.
      specialize (IH ltac:(lia)).
      destruct (parseRawNumber_loop (S i) rest str); auto.
      intros _. apply IH. lia.
    + destruct (Nat.eqb i 0) eqn:E; [exact I|].
      apply Nat.eqb_neq in E. intros _. rewrite length_drop. lia.
Qed.

Lemma consumes_bind {A B : Type} (str str' : string) (x : outcome (result A))
  (f : result A -> outcome (result B)) :
  consumes str' x ->
  (forall r, x = Return r -> consumes str' (Return r) -> consumes str (f r)) ->
  consumes str (bind x f).
Proof.
  intros Hx Hf. destruct x as [r| |]; cbn in *; try contradiction.
  apply Hf; auto.
Qed.

Lemma parseArray_loop_step (n : nat) :
  (forall m, (m < n)%nat -> total_upto m) ->
  (forall str fuel, (String.length str <= n)%nat -> (3 * n + 1 <= fuel)%nat ->
                    consumes str (parseValue fuel str)) ->
  forall str arr fuel, (String.length str <= n)%nat -> (3 * n + 2 <= fuel)%nat ->
                    consumes str (parseArray_loop fuel arr str).
Proof.
  intros IH HV str arr fuel Hs Hf.
  destruct fuel as [|fuel]; [lia|]. cbn [parseArray_loop].
  pose proof (skipWS_length str) as Hws.
  apply (consumes_bind _ (skipWS str)); [apply HV; lia|].
  intros [v tail|e tail] _ Hr; [|exact I]. cbn [consumes] in Hr.
  pose proof (skipWS_length tail) as Hws2.
  destruct (skipWS tail) as [|c str'] eqn:Ht; [exact I|].
  cbn [String.length] in Hws2.
  destruct (Ascii.eqb c ",").
  - destruct (IH (String.length str') ltac:(lia)) as (_ & HL & _).
    specialize (HL str' (set_a arr (a arr ++ [v])%list) fuel (le_n _) ltac:(lia)).
    unfold consumes in *.
    destruct (parseArray_loop fuel _ str') as [[k tl|e tl]| |]; auto. lia.
  - destruct (Ascii.eqb c "]"); [cbn; lia|exact I].
Qed.

Lemma parseObject_loop_step (n : nat) :
  (forall m, (m < n)%nat -> total_upto m) ->
  (forall str fuel, (String.length str <= n)%nat -> (3 * n + 1 <= fuel)%nat ->
                    consumes str (parseValue fuel str)) ->
  forall str obj fuel, (String.length str <= n)%nat -> (3 * n + 2 <= fuel)%nat ->
                    consumes str (parseObject_loop fuel obj str).
Proof.
  intros IH HV str obj fuel Hs Hf.
  destruct fuel as [|fuel]; [lia|]. cbn [parseObject_loop].
  pose proof (skipWS_length str) as Hws.
  apply (consumes_bind _ (skipWS str)); [apply parseRawString_consumes|].
  intros [k tail|e tail] _ Hr; [|exact I]. cbn [consumes] in Hr.
  pose proof (skipWS_length tail) as Hws1.
  destruct (negb (first_is (skipWS tail) ":")); [exact I|].
  pose proof (skipWS_length (drop 1 (skipWS tail))) as Hws2.
  rewrite length_drop in Hws2.
  apply (consumes_bind _ (skipWS (drop 1 (skipWS tail)))); [apply HV; lia|].
  intros [v tail2|e tail2] _ Hr2; [|exact I]. cbn [consumes] in Hr2.
  pose proof (skipWS_length tail2) as Hws3.
  destruct (skipWS tail2) as [|c str'] eqn:Ht; [exact I|].
  cbn [String.length] in Hws3.
  destruct (Ascii.eqb c ",").
  - destruct (IH (String.length str') ltac:(lia)) as (_ & _ & HL).
    specialize (HL str' (set_o obj (o obj ++ [(k, v)])%list) fuel (le_n _) ltac:(lia)).
    unfold consumes in *.
    destruct (parseObject_loop fuel _ str') as [[k' tl|e' tl]| |]; auto. lia.
  - destruct (Ascii.eqb c "}"); [cbn; lia|exact I].
Qed.

Lemma parseValue_step (n : nat) :
  (forall m, (m < n)%nat -> total_upto m) ->
  forall str fuel, (String.length str <= n)%nat -> (3 * n + 1 <= fuel)%nat ->
                   consumes str (parseValue fuel str).
Proof.
  intros IH str fuel Hs Hf.
  destruct fuel as [|fuel]; [lia|]. cbn [parseValue].
  destruct str as [|c str1] eqn:Hstr; [exact I|]. rewrite <- Hstr in *.
  assert (Hlen : String.length str = S (String.length str1)) by (now subst).
  destruct (Ascii.eqb c "{").
  { destruct fuel as [|fuel]; [lia|]. cbn [parseObject].
    pose proof (skipWS_length (drop 1 str)) as Hws. rewrite length_drop in Hws.
    destruct (skipWS (drop 1 str)) as [|c' str'] eqn:Hd; [exact I|].
    destruct (Ascii.eqb c' "}"); [cbn in *; lia|].
    rewrite <- Hd in *.
    destruct (IH (n - 1)%nat ltac:(lia)) as (_ & _ & HL).
    specialize (HL (skipWS (drop 1 str)) (set_t getValue TypeObject) fuel
                  ltac:(lia) ltac:(lia)).
    unfold consumes in *. cbn [bind].
    destruct (parseObject_loop fuel _ _) as [[k tl|e tl]| |]; auto. cbn. lia. }
  destruct (Ascii.eqb c "[").
  { destruct fuel as [|fuel]; [lia|]. cbn [parseArray].
    pose proof (skipWS_length (drop 1 str)) as Hws. rewrite length_drop in Hws.
    destruct (skipWS (drop 1 str)) as [|c' str'] eqn:Hd; [exact I|].
    destruct (Ascii.eqb c' "]"); [cbn in *; lia|].
    rewrite <- Hd in *.
    destruct (IH (n - 1)%nat ltac:(lia)) as (_ & HL & _).
    specialize (HL (skipWS (drop 1 str)) (set_t getValue TypeArray) fuel
                  ltac:(lia) ltac:(lia)).
    unfold consumes in *. cbn [bind].
    destruct (parseArray_loop fuel _ _) as [[k tl|e tl]| |]; auto. cbn. lia. }
  destruct (Ascii.eqb c dquote).
  { pose proof (parseRawString_consumes str) as H.
    unfold consumes in *.
    destruct (parseRawString str) as [[k tl|e tl]| |]; auto. }
  destruct (Ascii.eqb c "t").
  { destruct (negb (HasPrefix str "true")); [exact I|].
    cbn [consumes]. rewrite length_drop. lia. }
  destruct (Ascii.eqb c "f").
  { destruct (negb (HasPrefix str "false")); [exact I|].
    cbn [consumes]. rewrite length_drop. lia. }
  destruct (Ascii.eqb c "n").
  { destruct (negb (HasPrefix str "null")); [exact I|].
    cbn [consumes]. rewrite length_drop. lia. }
  pose proof (parseRawNumber_loop_consumes str 0 str eq_refl) as H.
  unfold parseRawNumber.
  destruct (parseRawNumber_loop 0 str str); [|exact I].
  cbn [consumes]. apply H. lia.
Qed.

Lemma parser_total_upto (n : nat) : total_upto n.
Proof.
  induction n as [n IH] using (well_founded_induction Wf_nat.lt_wf).
  pose proof (parseValue_step n IH) as HV.
  split; [exact HV|]. split.
  - apply parseArray_loop_step; assumption.
  - apply parseObject_loop_step; assumption.
Qed.

(** [Parse] returns on every text: a value or an error, never a panic,
    and the bound on the recursion it is given is enough. *)
Theorem Parse_total (str : string) : returns (Parse str).
Proof.
  unfold Parse, Parse_with.
  pose proof (skipWS_length str) as Hws.
  destruct (parser_total_upto (String.length str)) as (HV & _ & _).
  specialize (HV (skipWS str) (3 * String.length str + 3)%nat Hws ltac:(lia)).
  unfold consumes in HV.
  destruct (parseValue _ _) as [[v tl|e tl]| |]; try contradiction; cbn [bind].
  - destruct (0 <? len (skipWS tl))%Z; exact I.
  - exact I.
Qed.

(** Blanks around a value are skipped; anything else after it is an
    error. *)
Example Parse_whitespace :
  Parse ("  " ++ String "009" (String "010" "{}  ")) = Return (inl emptyObject)
  /\ Parse "{} x" = Return (inr (Errorf_q "unexpected tail: %q" "x")).
Proof. split; reflexivity. Qed.

(** The empty containers are the shared values, and [[1,2,3]] is an
    array of three raw numbers that decode to the floats 1, 2 and 3. *)
Example Parse_containers :
  Parse "{}" = Return (inl emptyObject)
  /\ Parse "[]" = Return (inl emptyArray)
  /\ match Parse "[1,2,3]" with
     | Return (inl v) =>
         map t (a v) = [typeRawNumber; typeRawNumber; typeRawNumber]
         /\ map (fun e => n (fst (Value_Type Strconv.ParseFloat e))) (a v)
            = map float64_of_int64 [1; 2; 3]%Z
     | _ => False
     end.
Proof. repeat split; reflexivity. Qed.

End ParserFacts.

(** ** Navigation *)

Section GetFacts.

Import JSON.

Lemma Object_Get_find (kvs : Object) (key : string) :
  Object_Get kvs key
  = option_map snd (find (fun kv => String.eqb (fst kv) key) kvs).
Proof.
  induction kvs as [|[k v] kvs IH]; simpl; [reflexivity|].
  destruct (String.eqb k key); [reflexivity | exact IH].
Qed.

Lemma index_in_range {A : Type} (l : list A) (i : Z) :
  0 <= i < Z.of_nat (List.length l) ->
  exists x, nth_error l (Z.to_nat i) = Some x /\ index l (Z.to_nat i) = Return x.
Proof.
  intros H. unfold index.
  destruct (nth_error l (Z.to_nat i)) as [x|] eqn:E.
  - exists x. split; reflexivity.
  - apply nth_error_None in E. lia.
Qed.

Lemma Get_loop_addressed (keys : list string) :
  forall v, Get_loop v keys = Return (Described.addressed (Some v) keys).
Proof.
  induction keys as [|key keys IH]; intros v; [reflexivity|].
  cbn [Get_loop Described.addressed]. unfold Described.element.
  destruct (t v); try (now destruct keys).
  - rewrite <- Object_Get_find.
    destruct (Object_Get (o v) key) as [v'|]; [apply IH | now destruct keys].
  - destruct (Atoi key) as [i|]; [|now destruct keys].
    destruct (i <? 0) eqn:Hneg; cbn [orb]; [now destruct keys|].
    destruct (i >=? Z.of_nat (List.length (a v))) eqn:Hlen.
    + replace (nth_error (a v) (Z.to_nat i)) with (@None Value);
        [now destruct keys|].
      symmetry. apply nth_error_None.
      apply Z.geb_le in Hlen. apply Z.ltb_ge in Hneg. lia.
    + assert (Hi : 0 <= i < Z.of_nat (List.length (a v))).
      { apply Z.ltb_ge in Hneg. rewrite Z.geb_leb in Hlen.
        apply Z.leb_gt in Hlen. lia. }
      destruct (index_in_range _ _ Hi) as (x & Hx & Hidx).
      rewrite Hidx, Hx. cbn [bind]. apply IH.
Qed.

(** C10: [Get] returns on every receiver and path, and what it returns
    is the node the path addresses: nil for a nil receiver, for a key an
    object lacks, for an array key that is no decimal integer, or is
    negative, or is not below the length, and for a key left on a node
    that is no container. *)
Theorem C10_Get_total (v : option Value) (keys : list string) :
  Value_Get v keys = Return (Described.addressed v keys)
  /\ Value_Get None keys = Return None
  /\ forall (w : Value) (key : string),
       Value_Get (Some w) (key :: keys)
       = match t w with
         | TypeObject =>
             match Object_Get (o w) key with
             | Some child => Value_Get (Some child) keys
             | None => Return None
             end
         | TypeArray =>
             match Atoi key with
             | Some i =>
                 if (i <? 0) || (Z.of_nat (List.length (a w)) <=? i) then Return None
                 else Value_Get (nth_error (a w) (Z.to_nat i)) keys
             | None => Return None
             end
         | _ => Return None
         end.
Proof.
  split; [|split].
  - destruct v as [v|]; [apply Get_loop_addressed | now destruct keys].
  - reflexivity.
  - intros w key. cbn [Value_Get Get_loop].
    destruct (t w); try reflexivity.
    destruct (Atoi key) as [i|]; [|reflexivity].
    rewrite Z.geb_leb.
    destruct (i <? 0) eqn:Hneg; cbn [orb]; [reflexivity|].
    destruct (Z.of_nat (List.length (a w)) <=? i) eqn:Hlen; [reflexivity|].
    assert (Hi : 0 <= i < Z.of_nat (List.length (a w))).
    { apply Z.ltb_ge in Hneg. apply Z.leb_gt in Hlen. lia. }
    destruct (index_in_range _ _ Hi) as (x & Hx & Hidx).
    rewrite Hidx, Hx. reflexivity.
Qed.

(** Keys that [Atoi] takes for an index, and keys it does not. *)
Example Atoi_keys :
  Atoi "2" = Some 2 /\ Atoi "+2" = Some 2 /\ Atoi "-1" = Some (-1)
  /\ Atoi "" = None /\ Atoi "1x" = None /\ Atoi "1.0" = None
  /\ Atoi "9223372036854775808" = None.
Proof. repeat split; reflexivity. Qed.

End GetFacts.

(** ** Projection *)

Section KeepFacts.

Import JSON.

Variable ParseFloat : string -> option float64.
Variable Quote : string -> string.
Variable GetKeys : string -> list string * list string.
Variable splitBraces : string -> list string.

Local Abbreviation Keep := (Value_Keep ParseFloat Quote GetKeys splitBraces).

(** C3 (the code at an absent key): on an object node, when the first
    plain key of the request is absent from the object, [Keep] returns a
    nil result together with a nil error. *)
Theorem C3_Keep_absent_key_returns_nil_error
  (fuel : nat) (v : Value) (request stay : string) (stays conts : list string) :
  t v = TypeObject ->
  GetKeys request = (stay :: stays, conts) ->
  Object_Get (o v) stay = None ->
  Keep (S fuel) (Some v) request = Return (ANil, None).
Proof.
  intros Ht Hkeys Habsent.
  cbn [Value_Keep]. unfold Value_Object.
  rewrite (Type_decoded ParseFloat v) by (rewrite Ht; discriminate).
  rewrite Ht.
  rewrite (Type_decoded ParseFloat v) by (rewrite Ht; discriminate).
  rewrite Ht. cbn [JType_eqb negb].
  rewrite Hkeys, Habsent. reflexivity.
Qed.

(** An absent key that carries a nested selection: [Keep] is called on
    the nil node, and the program stops on a panic. *)
Lemma Keep_absent_nested_key_panics
  (fuel : nat) (v : Value) (request cont : string) (conts : list string) :
  t v = TypeObject ->
  GetKeys request = ([], cont :: conts) ->
  Object_Get (o v) (Split_colon_first cont) = None ->
  exists msg, Keep (S (S fuel)) (Some v) request = Panic msg.
Proof.
  intros Ht Hkeys Habsent.
  cbn [Value_Keep]. unfold Value_Object.
  rewrite (Type_decoded ParseFloat v) by (rewrite Ht; discriminate).
  rewrite Ht.
  rewrite (Type_decoded ParseFloat v) by (rewrite Ht; discriminate).
  rewrite Ht. cbn [JType_eqb negb].
  rewrite Hkeys, Habsent.
  destruct (splitBraces cont) as [|val0 val]; cbn; eauto.
Qed.

End KeepFacts.

(** C3 at the object with the one key [a] and the request [b],
    whose only plain key is [b]. *)
Lemma C3_Keep_absent_key_witness :
  let v := JSON.set_o (JSON.set_t JSON.getValue TypeObject)
             [("a", JSON.rawValue typeRawNumber "1")] in
  JSON.Object_Get (JSON.o v) "b" = None
  /\ JSON.Value_Keep Strconv.ParseFloat (fun str => str) (fun req => ([req], []))
       (fun _ => []) 1 (Some v) "b"
     = Return (ANil, None).
Proof.
  intros v. split; [reflexivity|].
  exact (C3_Keep_absent_key_returns_nil_error Strconv.ParseFloat (fun str => str)
           (fun req => ([req], [])) (fun _ => []) 0 v "b" "b" [] []
           eq_refl eq_refl eq_refl).
Defined.

(** ** Query compilation *)

Section QueryFacts.

Import Query.

Variable ParseFloat : string -> option float64.

Lemma bind_Return {A B : Type} (x : outcome A) (f : A -> outcome B) (r : B) :
  bind x f = Return r -> exists y, x = Return y /\ f y = Return r.
Proof. destruct x as [y| |]; simpl; intros H; try discriminate. eauto. Qed.

(** [parseQuery] never sets its error result. *)
Lemma parseQuery_error_is_nil (fuel : nat) (cmd : string)
  (lvl : Level) (name : string) (err : option error) :
  parseQuery ParseFloat fuel cmd = Return (lvl, name, err) -> err = None.
Proof.
  destruct fuel as [|fuel]; [discriminate|].
  cbn [parseQuery]. intros H.
  apply bind_Return in H as (m2 & _ & H).
  apply bind_Return in H as (l1 & _ & H).
  apply bind_Return in H as (m3 & _ & H).
  apply bind_Return in H as (l2 & _ & H).
  apply bind_Return in H as (m1 & _ & H).
  now inversion H.
Qed.

Lemma ParseQuery_error_is_nil (cmd : string) (lvl : Level) (err : option error) :
  ParseQuery ParseFloat cmd = Return (lvl, err) -> err = None.
Proof.
  unfold ParseQuery. intros H.
  apply bind_Return in H as ([[l nm] e] & H1 & H2).
  apply parseQuery_error_is_nil in H1. inversion H2. congruence.
Qed.

(** C2 (the code at a malformed query): when the pattern of the outer
    shape does not match the query, [ParseQuery] does not return: the
    nil result of the match is indexed, and the program panics. *)
Theorem C2_ParseQuery_malformed_panics (cmd : string) :
  Regexp.FindStringSubmatch 3 cmdRegex cmd = [] ->
  ParseQuery ParseFloat cmd = Panic index_out_of_range.
Proof.
  intros H. unfold ParseQuery. cbn [parseQuery]. rewrite H. reflexivity.
Qed.

End QueryFacts.

(** C2 at the query [abc], which has no braces. *)
Lemma C2_ParseQuery_malformed_witness :
  Regexp.FindStringSubmatch 3 Query.cmdRegex "abc" = []
  /\ Query.ParseQuery Strconv.ParseFloat "abc" = Panic index_out_of_range.
Proof.
  split; [reflexivity|].
  exact (C2_ParseQuery_malformed_panics Strconv.ParseFloat "abc" eq_refl).
Defined.

(** The query of the specification's example compiles to a level that
    retrieves [b] and has the child [c], with the filter [x > 1] and the
    fields [d] and [e]. *)
Example ParseQuery_example :
  Query.ParseQuery Strconv.ParseFloat "a{b,c(x>1){d,e}}"
  = Return (Query.mkLevel [] [("c", Query.mkLevel
                                       [Filters.mkFilter "x" Filters.sup (AInt64 1)]
                                       [] ["d"; "e"])] ["b"],
            None).
Proof. reflexivity. Qed.

(** A nested level that fails the pattern stops the whole compilation. *)
Example ParseQuery_malformed_child :
  Query.ParseQuery Strconv.ParseFloat "a{b(}" = Panic index_out_of_range.
Proof. reflexivity. Qed.

(** * Further properties *)

(** ** Operators and literals *)

Lemma string_compare_refl (x : string) : String.compare x x = Eq.
Proof.
  induction x as [|c x IH]; [reflexivity|].
  cbn [String.compare]. unfold Ascii.compare. now rewrite N.compare_refl.
Qed.

Lemma SFleb_ltb_eqb (x y : float64) : SFleb x y = SFltb x y || SFeqb x y.
Proof. unfold SFleb, SFltb, SFeqb. now destruct (SFcompare x y) as [[| |]|]. Qed.

Lemma SFeqb_sym (x y : float64) : SFeqb x y = SFeqb y x.
Proof.
  unfold SFeqb.
  destruct x as [[|]|[|]| |[|] m1 e1], y as [[|]|[|]| |[|] m2 e2]; try reflexivity;
    cbn [SFcompare];
    change (Pos.compare_cont Eq m2 m1) with (Pos.compare m2 m1);
    change (Pos.compare_cont Eq m1 m2) with (Pos.compare m1 m2);
    rewrite (Z.compare_antisym e1 e2), (Pos.compare_antisym m1 m2);
    destruct (e1 ?= e2)%Z; cbn [CompOpp]; try reflexivity;
    destruct (m1 ?= m2)%positive; reflexivity.
Qed.

Lemma Z_geb_gtb_eqb (x y : Z) : (x >=? y) = (x >? y) || (x =? y).
Proof.
  rewrite Z.geb_leb, Z.gtb_ltb.
  destruct (Z.leb_spec y x), (Z.ltb_spec y x), (Z.eqb_spec x y); try reflexivity; lia.
Qed.

Lemma Z_leb_ltb_eqb (x y : Z) : (x <=? y) = (x <? y) || (x =? y).
Proof.
  destruct (Z.leb_spec x y), (Z.ltb_spec x y), (Z.eqb_spec x y); try reflexivity; lia.
Qed.

Section OperatorFacts.

Import Filters.

Variable MatchString : string -> string -> option bool.
Variable ParseFloat : string -> option float64.

Local Abbreviation check := (Filters.check MatchString).

(** X1: each of the twelve operator tokens compiles to the operation of
    that name, and any other token compiles to an operation that is
    false on every pair of values. *)
Theorem X1_unknown_operator_is_false (line : string) (base compared : any) :
  (In line [eq; partialEq; diff; partialDiff; sup; supEq; inf; infEq;
            contain; notContain; like; notLike] -> findOperation line = line)
  /\ (~ In line [eq; partialEq; diff; partialDiff; sup; supEq; inf; infEq;
                 contain; notContain; like; notLike] ->
      check (findOperation line) base compared = false).
Proof.
  split.
  - intros H. cbn [In] in H.
    repeat (destruct H as [<-|H]; [reflexivity|]). contradiction.
  - intros H. unfold findOperation.
    repeat match goal with
           | |- context [String.eqb line ?x] =>
               destruct (String.eqb_spec line x) as [E|_];
               [exfalso; apply H; rewrite E; cbn; tauto|]
           end.
    reflexivity.
Qed.

(** X2: a filter whose literal is [null] matches nothing, whatever its
    operator and whatever the value, a nil value included. *)
Theorem X2_null_literal_never_matches (key token : string) (compared : any) :
  Query.typed ParseFloat "null" = ANil
  /\ Filter_check MatchString
       (mkFilter key (findOperation token) (Query.typed ParseFloat "null")) compared
     = false.
Proof.
  split; [reflexivity|].
  unfold Filter_check. cbn [op val Query.typed String.eqb Ascii.eqb Bool.eqb].
  unfold Filters.check.
  repeat match goal with
         | |- context [if ?b then _ else _] => destruct b; [reflexivity|]
         end.
  reflexivity.
Qed.

(** X3: against a boolean literal the two equal operators test that the
    value is that boolean and the two not-equal operators that it is the
    other boolean; a value that is no boolean satisfies none of them; and
    the ordering, contain and like operators are false. *)
Theorem X3_boolean_literal (b : bool) (compared : any) :
  check eq (ABool b) compared
  = match compared with ABool c => Bool.eqb c b | _ => false end
  /\ check partialEq (ABool b) compared = check eq (ABool b) compared
  /\ check diff (ABool b) compared
     = match compared with ABool c => negb (Bool.eqb c b) | _ => false end
  /\ check partialDiff (ABool b) compared = check diff (ABool b) compared
  /\ forall o, In o [sup; supEq; inf; infEq; contain; notContain; like; notLike] ->
               check o (ABool b) compared = false.
Proof.
  repeat split; try (destruct compared; reflexivity).
  intros o H. cbn [In] in H.
  repeat (destruct H as [<-|H]; [reflexivity|]). contradiction.
Qed.

(** X4: against an integer or a float literal, [>=] holds exactly when
    [>] or [===] holds, and [<=] exactly when [<] or [===] holds, for
    every value. *)
Theorem X4_numeric_ordering_or_equal (i : Z) (f : float64) (compared : any) :
  check supEq (AInt64 i) compared
  = check sup (AInt64 i) compared || check eq (AInt64 i) compared
  /\ check infEq (AInt64 i) compared
     = check inf (AInt64 i) compared || check eq (AInt64 i) compared
  /\ check supEq (AFloat64 f) compared
     = check sup (AFloat64 f) compared || check eq (AFloat64 f) compared
  /\ check infEq (AFloat64 f) compared
     = check inf (AFloat64 f) compared || check eq (AFloat64 f) compared.
Proof.
  repeat split; destruct compared as [ | |i0|f0| | | | ]; try reflexivity; cbn;
    rewrite ?if_true_false; unfold f64_ge, f64_gt, f64_le, f64_lt, f64_eq;
    first [ apply Z_geb_gtb_eqb | apply Z_leb_ltb_eqb | apply SFleb_ltb_eqb
          | rewrite SFleb_ltb_eqb; f_equal; apply SFeqb_sym ].
Qed.

(** X5: against an integer or a float literal, [!==] is the negation
    of [===] when the value is an integer or a float; on a value of any
    other type both are false. *)
Theorem X5_numeric_not_equal (i : Z) (f : float64) (compared : any) :
  match compared with
  | AInt64 _ | AFloat64 _ =>
      check diff (AInt64 i) compared = negb (check eq (AInt64 i) compared)
      /\ check diff (AFloat64 f) compared = negb (check eq (AFloat64 f) compared)
  | _ =>
      check diff (AInt64 i) compared = false
      /\ check eq (AInt64 i) compared = false
      /\ check diff (AFloat64 f) compared = false
      /\ check eq (AFloat64 f) compared = false
  end.
Proof.
  destruct compared; repeat split; cbn; rewrite ?if_true_false; reflexivity.
Qed.

Lemma Atoi_is_int64 (str : string) (i : Z) :
  JSON.Atoi str = Some i -> is_int64 i = true.
Proof.
  unfold JSON.Atoi.
  destruct (match str with
            | EmptyString => (false, str)
            | String c str' =>
                if Ascii.eqb c "-" then (true, str')
                else if Ascii.eqb c "+" then (false, str') else (false, str)
            end) as [neg digits].
  destruct (JSON.decimal digits) as [x|]; [|discriminate].
  destruct (is_int64 (if neg then - x else x)) eqn:E; [|discriminate].
  intros H. inversion H; subst. exact E.
Qed.

(** X6: the literal of a filter is a boolean for [true] and [false], nil
    for [null], a 64-bit integer for a token [ParseInt] reads, a float
    for another token [ParseFloat] reads, and otherwise the token itself
    as a string, its quotes included; it is never a list. *)
Theorem X6_typed_literal (v : string) :
  match Query.typed ParseFloat v with
  | ABool b => v = if b then "true" else "false"
  | ANil => v = "null"
  | AInt64 i => Query.ParseInt_10_64 v = Some i /\ is_int64 i = true
  | AFloat64 f => Query.ParseInt_10_64 v = None /\ ParseFloat v = Some f
  | AString str => str = v /\ Query.ParseInt_10_64 v = None /\ ParseFloat v = None
  | ASlice _ | AMap _ | AOther _ => False
  end.
Proof.
  unfold Query.typed.
  destruct (String.eqb_spec v "true") as [->|_]; [reflexivity|].
  destruct (String.eqb_spec v "false") as [->|_]; [reflexivity|].
  destruct (String.eqb_spec v "null") as [->|_]; [reflexivity|].
  destruct (Query.ParseInt_10_64 v) as [i|] eqn:Hi.
  - split; [reflexivity|]. exact (Atoi_is_int64 _ _ Hi).
  - destruct (ParseFloat v) as [f|]; repeat split.
Qed.


(** X8: between a string literal and a string value, and between an
    integer literal and an integer value, exactly one of [>], [<] and
    [===] holds. *)
Theorem X8_ordering_trichotomy (v c : string) (i j : Z) :
  let one (g l e : bool) :=
    g || l || e = true /\ g && l = false /\ g && e = false /\ l && e = false in
  one (check sup (AString v) (AString c)) (check inf (AString v) (AString c))
      (check eq (AString v) (AString c))
  /\ one (check sup (AInt64 i) (AInt64 j)) (check inf (AInt64 i) (AInt64 j))
         (check eq (AInt64 i) (AInt64 j)).
Proof.
  cbn zeta. cbn. rewrite !if_true_false. split.
  - unfold String.ltb. rewrite (String.compare_antisym c v).
    destruct (String.eqb_spec c v) as [->|Hne].
    + rewrite string_compare_refl. repeat split.
    + destruct (String.compare v c) eqn:E; cbn; repeat split.
      apply String.compare_eq_iff in E. congruence.
  - rewrite Z.gtb_ltb.
    destruct (Z.ltb_spec i j), (Z.ltb_spec j i), (Z.eqb_spec j i);
      repeat split; lia.
Qed.

End OperatorFacts.

(** ** Decoding and scanning *)

Section ScanFacts.

Import JSON.

Lemma unescape_copy_loop_length (fuel : nat) :
  forall b str,
    (String.length (unescape_copy_loop fuel b str)
     <= String.length b + String.length str + 1)%nat.
Proof.
  induction fuel as [|fuel IH]; intros b str; cbn [unescape_copy_loop]; [lia|].
  destruct str as [|ch str1]; [lia|].
  pose proof (unescape_step_shape ch str1) as Hshape.
  destruct (unescape_step ch str1) as [out str2]. cbn [fst snd] in Hshape.
  assert (Hout : (String.length out + String.length str2
                  <= String.length str1 + 2)%nat).
  { destruct Hshape as [[-> Ho]|(-> & H4 & Ho)]; [lia|].
    rewrite length_drop. lia. }
  cbn [String.length].
  destruct (IndexByte str2 backslash) as [i|] eqn:Hi.
  - apply IndexByte_lt in Hi.
    specialize (IH ((b ++ out) ++ take i str2) (drop (S i) str2)).
    rewrite !length_append, length_take, length_drop in IH. lia.
  - rewrite !length_append. lia.
Qed.

(** X9: the text that unescaping writes over the raw text, through a
    slice that shares its bytes, is the text it would write into a buffer
    of its own: what is appended never reaches the bytes still to read,
    and never passes the capacity. *)
Theorem X9_unescape_in_place_is_safe (str : string) :
  unescapeStringBestEffort str = unescape_copy str.
Proof. apply unescape_in_place. Qed.

(** X10: the decoded text is never longer than the raw text. *)
Theorem X10_unescape_never_grows (str : string) :
  (String.length (unescapeStringBestEffort str) <= String.length str)%nat.
Proof.
  rewrite unescape_in_place. unfold unescape_copy.
  destruct (IndexByte str backslash) as [i|] eqn:Hi; [|lia].
  apply IndexByte_lt in Hi.
  pose proof (unescape_copy_loop_length (String.length str) (take i str)
                (drop (S i) str)) as H.
  rewrite length_take, length_drop in H. lia.
Qed.

(** X11: a backslash that is the last byte of the raw text, after a text
    [p] without backslash, is dropped: the decoded text is [p]. *)
Theorem X11_unescape_drops_trailing_backslash (p : string) :
  IndexByte p backslash = None ->
  unescapeStringBestEffort (p ++ String backslash "") = p.
Proof. apply unescape_trailing_backslash. Qed.

Lemma X11_unescape_drops_trailing_backslash_witness :
  IndexByte "abc" backslash = None /\ unescapeStringBestEffort "abc\" = "abc".
Proof.
  split; [reflexivity|].
  exact (X11_unescape_drops_trailing_backslash "abc" eq_refl).
Defined.

Lemma is_ws_small (c : ascii) : is_ws c = true -> (nat_of_ascii c <= 32)%nat.
Proof.
  unfold is_ws. intros H.
  repeat (apply orb_prop in H as [H|H]);
    apply Ascii.eqb_eq in H; subst c; cbn; lia.
Qed.

Lemma skipWS_fast_path (str : string) : skipWS str = skipWS_slow str.
Proof.
  destruct str as [|c str]; [reflexivity|]. unfold skipWS.
  destruct (Nat.ltb_spec 32 (nat_of_ascii c)) as [H|H]; [|reflexivity].
  cbn [skipWS_slow]. destruct (is_ws c) eqn:E; [|reflexivity].
  apply is_ws_small in E. lia.
Qed.

(** X12: [skipWS] removes a run of blanks (space, tab, line feed,
    carriage return) from the head of the text and nothing else; what it
    returns does not start with a blank, and the test of the first byte
    against 0x20 on its fast path agrees with the scan of the slow path. *)
Theorem X12_skipWS (str : string) :
  (exists blanks, str = blanks ++ skipWS str /\ all_bytes is_ws blanks = true)
  /\ match skipWS str with
     | String c _ => is_ws c = false
     | EmptyString => True
     end
  /\ skipWS str = skipWS_slow str
  /\ skipWS (skipWS str) = skipWS str.
Proof.
  rewrite !skipWS_fast_path.
  assert (H1 : exists blanks,
             str = blanks ++ skipWS_slow str /\ all_bytes is_ws blanks = true).
  { induction str as [|c str (blanks & IH1 & IH2)].
    - exists "". split; reflexivity.
    - cbn [skipWS_slow]. destruct (is_ws c) eqn:E.
      + exists (String c blanks). cbn. rewrite E, IH2, <- IH1. split; reflexivity.
      + exists "". split; reflexivity. }
  assert (H2 : forall x, match skipWS_slow x with
                         | String c _ => is_ws c = false
                         | EmptyString => True
                         end).
  { intros x. induction x as [|c x IH]; [exact I|].
    cbn [skipWS_slow]. destruct (is_ws c) eqn:E; [exact IH|exact E]. }
  specialize (H2 str).
  repeat split; try assumption.
  destruct (skipWS_slow str) as [|c rest]; [reflexivity|].
  cbn [skipWS_slow]. now rewrite H2.
Qed.

End ScanFacts.

(** ** Strings in the document *)

Section StringFacts.

Import JSON.

Lemma IndexByte_split (str : string) (c : ascii) (i : nat) :
  IndexByte str c = Some i -> str = take i str ++ String c (drop (S i) str).
Proof.
  revert i; induction str as [|a0 str IH]; cbn [IndexByte]; intros i H;
    [discriminate|].
  destruct (Ascii.eqb_spec a0 c) as [->|_].
  - now inversion H.
  - destruct (IndexByte str c) as [j|]; [|discriminate].
    inversion H; subst. cbn [take drop append]. now rewrite <- IH.
Qed.

Lemma parseRawString_loop_rebuilds (fuel : nat) :
  forall ss pre str i raw tail,
    ss = pre ++ str -> IndexByte str dquote = Some i ->
    parseRawString_loop fuel ss str i = Return (Ok raw tail) ->
    ss = raw ++ String dquote tail.
Proof.
  induction fuel as [|fuel IH]; intros ss pre str i raw tail Hss Hi H;
    [discriminate|].
  assert (Hcut : forall pre0 str0 j,
             ss = pre0 ++ str0 -> IndexByte str0 dquote = Some j ->
             ss = take (String.length ss - String.length str0 + j) ss
                  ++ String dquote (drop (S j) str0)).
  { intros pre0 str0 j E Hj. rewrite E at 2 3. rewrite length_append.
    replace (String.length pre0 + String.length str0 - String.length str0 + j)%nat
      with (String.length pre0 + j)%nat by lia.
    rewrite take_app_ge by lia.
    replace (String.length pre0 + j - String.length pre0)%nat with j by lia.
    rewrite append_assoc, <- (IndexByte_split _ _ _ Hj). exact E. }
  cbn [parseRawString_loop] in H.
  destruct (Nat.even _).
  - injection H as <- <-. exact (Hcut pre str i Hss Hi).
  - destruct (IndexByte (drop (S i) str) dquote) as [j|] eqn:Hj; [|discriminate].
    assert (Hss' : ss = (pre ++ take i str ++ String dquote "") ++ drop (S i) str).
    { rewrite !append_assoc. cbn [append]. rewrite <- (IndexByte_split _ _ _ Hi).
      exact Hss. }
    destruct (Nat.eqb j 0 || not_backslash_before (drop (S i) str) j).
    + injection H as <- <-. exact (Hcut _ _ j Hss' Hj).
    + exact (IH _ _ _ _ _ _ Hss' Hj H).
Qed.

(** X13: when [parseRawString] returns a raw string and a tail, the text
    it was given is a double quote, the raw string, a double quote and
    the tail: nothing is lost and nothing is added. *)
Theorem X13_parseRawString_rebuilds (str raw tail : string) :
  parseRawString str = Return (Ok raw tail) ->
  str = String dquote (raw ++ String dquote tail).
Proof.
  unfold parseRawString. destruct str as [|c str1]; [discriminate|].
  destruct (Ascii.eqb_spec c dquote) as [->|_]; cbn [negb]; [|discriminate].
  destruct (IndexByte str1 dquote) as [i|] eqn:Hi; [|discriminate].
  destruct (Nat.eqb i 0 || not_backslash_before str1 i).
  - intros H. injection H as <- <-. f_equal.
    exact (IndexByte_split _ _ _ Hi).
  - intros H. f_equal.
    exact (parseRawString_loop_rebuilds _ str1 "" str1 i raw tail eq_refl Hi H).
Qed.

Lemma X13_parseRawString_rebuilds_witness :
  let raw := "a\" ++ String dquote "b" in
  parseRawString (quoted raw ++ " :1") = Return (Ok raw " :1")
  /\ quoted raw ++ " :1" = String dquote (raw ++ String dquote " :1").
Proof.
  intros raw. split; [reflexivity|].
  exact (X13_parseRawString_rebuilds (quoted raw ++ " :1") raw " :1" eq_refl).
Defined.

Lemma get_app_lt (i : nat) (x y : string) :
  (i < String.length x)%nat -> String.get i (x ++ y) = String.get i x.
Proof.
  revert i; induction x as [|c x IH]; intros i H; cbn in H; [lia|].
  destruct i as [|i]; [reflexivity|]. cbn. apply IH. lia.
Qed.

Variable ParseFloat : string -> option float64.

(** X14: a text without double quote whose last byte is no backslash,
    put between double quotes, is scanned back as the raw string; [Parse]
    makes a raw string node of it, and the first inspection of that node
    gives a string whose content is the unescaped text. *)
Theorem X14_quoted_text_round_trip (raw tail : string) :
  IndexByte raw dquote = None ->
  String.get (String.length raw - 1) raw <> Some backslash ->
  parseRawString (String dquote (raw ++ String dquote tail)) = Return (Ok raw tail)
  /\ Parse (quoted raw) = Return (inl (rawValue typeRawString raw))
  /\ Value_Type ParseFloat (rawValue typeRawString raw)
     = (set_t (set_s (rawValue typeRawString raw) (unescapeStringBestEffort raw))
          TypeString, TypeString).
Proof.
  intros Hq Hb.
  assert (H1 : forall tl, parseRawString (String dquote (raw ++ String dquote tl))
                          = Return (Ok raw tl)).
  { intros tl. unfold parseRawString. rewrite Ascii.eqb_refl. cbn [negb].
    rewrite (IndexByte_app _ _ _ Hq), take_app, drop_S_app.
    replace (Nat.eqb (String.length raw) 0
             || not_backslash_before (raw ++ String dquote tl) (String.length raw))
      with true; [reflexivity|].
    symmetry. apply orb_true_iff.
    destruct (Nat.eqb_spec (String.length raw) 0) as [|Hne]; [now left|right].
    unfold not_backslash_before. rewrite get_app_lt by lia.
    destruct (String.get (String.length raw - 1) raw) as [c|]; [|reflexivity].
    destruct (Ascii.eqb_spec c backslash) as [->|_]; [|reflexivity].
    now elim Hb. }
  split; [apply H1|]. split; [|reflexivity].
  unfold Parse, Parse_with, quoted.
  change (skipWS (String dquote (raw ++ String dquote "")))
    with (String dquote (raw ++ String dquote "")).
  replace (3 * String.length (String dquote (raw ++ String dquote "")) + 3)%nat
    with (S (3 * String.length (String dquote (raw ++ String dquote "")) + 2))%nat
    by lia.
  cbn [parseValue Ascii.eqb Bool.eqb dquote]. fold dquote.
  rewrite H1. reflexivity.
Qed.

End StringFacts.

Lemma X14_quoted_text_round_trip_witness :
  IndexByte "a\nb" dquote = None
  /\ JSON.Parse (quoted "a\nb") = Return (inl (JSON.rawValue typeRawString "a\nb"))
  /\ JSON.s (fst (JSON.Value_Type Strconv.ParseFloat (JSON.rawValue typeRawString "a\nb")))
     = String "a" (String "010" "b").
Proof.
  pose proof (X14_quoted_text_round_trip Strconv.ParseFloat "a\nb" "" eq_refl
                ltac:(discriminate)) as (_ & H2 & H3).
  split; [reflexivity|]. split; [exact H2|]. now rewrite H3.
Defined.

(** ** The parser as a whole *)

Section WholeParser.

Import JSON.

Ltac bind_step H :=
  match type of H with
  | bind ?x _ = Return _ =>
      let E := fresh "E" in
      destruct x as [?y| |] eqn:E; [cbn [bind] in H|discriminate H|discriminate H]
  end.

(** A bound that was enough stays enough when it grows. *)
Lemma parse_fuel_mono (fuel : nat) :
  forall fuel', (fuel <= fuel')%nat ->
    (forall str r, parseValue fuel str = Return r -> parseValue fuel' str = Return r)
    /\ (forall str r, parseArray fuel str = Return r -> parseArray fuel' str = Return r)
    /\ (forall arr str r, parseArray_loop fuel arr str = Return r ->
                          parseArray_loop fuel' arr str = Return r)
    /\ (forall str r, parseObject fuel str = Return r -> parseObject fuel' str = Return r)
    /\ (forall obj str r, parseObject_loop fuel obj str = Return r ->
                          parseObject_loop fuel' obj str = Return r).
Proof.
  induction fuel as [|fuel IH]; intros fuel' Hle.
  { repeat split; intros; discriminate. }
  destruct fuel' as [|fuel']; [lia|].
  destruct (IH fuel' ltac:(lia)) as (IHv & IHa & IHal & IHo & IHol).
  split; [|split; [|split; [|split]]].
  - intros str r H. cbn [parseValue] in *.
    destruct str as [|c str1]; [exact H|].
    destruct (Ascii.eqb c "{").
    { bind_step H. now rewrite (IHo _ _ E). }
    destruct (Ascii.eqb c "[").
    { bind_step H. now rewrite (IHa _ _ E). }
    exact H.
  - intros str r H. cbn [parseArray] in *.
    destruct (skipWS (drop 1 str)) as [|c str']; [exact H|].
    destruct (Ascii.eqb c "]"); [exact H|]. now apply IHal.
  - intros arr str r H. cbn [parseArray_loop] in *.
    bind_step H. rewrite (IHv _ _ E). cbn [bind].
    destruct y as [v tail|e tail]; [|exact H].
    destruct (skipWS tail) as [|c str']; [exact H|].
    destruct (Ascii.eqb c ","); [now apply IHal|exact H].
  - intros str r H. cbn [parseObject] in *.
    destruct (skipWS (drop 1 str)) as [|c str']; [exact H|].
    destruct (Ascii.eqb c "}"); [exact H|]. now apply IHol.
  - intros obj str r H. cbn [parseObject_loop] in *.
    bind_step H. cbn [bind].
    destruct y as [k tail|e tail]; [|exact H].
    destruct (negb (first_is (skipWS tail) ":")); [exact H|].
    bind_step H. rewrite (IHv _ _ E0). cbn [bind].
    destruct y as [v tail2|e tail2]; [|exact H].
    destruct (skipWS tail2) as [|c str']; [exact H|].
    destruct (Ascii.eqb c ","); [now apply IHol|exact H].
Qed.

Lemma parseValue_enough (str : string) (fuel : nat) :
  (3 * String.length str + 1 <= fuel)%nat ->
  parseValue fuel str = parseValue (3 * String.length str + 1) str.
Proof.
  intros H.
  destruct (parser_total_upto (String.length str)) as (HV & _ & _).
  specialize (HV str _ (le_n _) (le_n _)). unfold consumes in HV.
  destruct (parseValue (3 * String.length str + 1) str) as [r| |] eqn:E;
    try contradiction.
  destruct (parse_fuel_mono _ _ H) as (M & _). exact (M _ _ E).
Qed.

Lemma skipWS_blanks (blanks str : string) :
  all_bytes is_ws blanks = true -> skipWS (blanks ++ str) = skipWS str.
Proof.
  rewrite !skipWS_fast_path.
  induction blanks as [|c blanks IH]; intros H; [reflexivity|].
  cbn [all_bytes] in H. apply andb_prop in H as [Hc H].
  cbn [append skipWS_slow]. rewrite Hc. now apply IH.
Qed.

(** X15: [Parse] returns on every text, with a value or with an error:
    it does not panic, and its nested calls and loop turns end, within
    three for each byte of the text. *)
Theorem X15_Parse_returns (str : string) : returns (Parse str).
Proof. apply Parse_total. Qed.

(** X16: blanks before the document do not change what [Parse]
    returns, value or error. *)
Theorem X16_Parse_skips_leading_blanks (blanks str : string) :
  all_bytes is_ws blanks = true -> Parse (blanks ++ str) = Parse str.
Proof.
  intros H. unfold Parse, Parse_with. rewrite (skipWS_blanks _ _ H).
  pose proof (skipWS_length str) as Hs.
  rewrite (parseValue_enough (skipWS str) (3 * String.length (blanks ++ str) + 3))
    by (rewrite length_append; lia).
  rewrite (parseValue_enough (skipWS str) (3 * String.length str + 3)) by lia.
  reflexivity.
Qed.

Lemma X16_Parse_skips_leading_blanks_witness :
  all_bytes is_ws (String "010" "  ") = true
  /\ Parse (String "010" "  " ++ "[1]") = Parse "[1]".
Proof.
  split; [reflexivity|].
  exact (X16_Parse_skips_leading_blanks (String "010" "  ") "[1]" eq_refl).
Defined.

End WholeParser.
(** ** The shape of parsed trees *)

Section ShapeFacts.

Import JSON Access.

Ltac bind_step H :=
  match type of H with
  | bind ?x _ = Return _ =>
      let E := fresh "E" in
      destruct x as [?y| |] eqn:E; [cbn [bind] in H|discriminate H|discriminate H]
  end.

Lemma all_bytes_app (p : ascii -> bool) (x y : string) :
  all_bytes p (x ++ y) = all_bytes p x && all_bytes p y.
Proof.
  induction x as [|c x IH]; [reflexivity|].
  cbn [append all_bytes]. now rewrite IH, andb_assoc.
Qed.

Lemma parseRawNumber_loop_shape (rest : string) :
  forall pre ns tail,
    all_bytes is_number_char pre = true ->
    parseRawNumber_loop (String.length pre) rest (pre ++ rest) = Ok ns tail ->
    all_bytes is_number_char ns = true /\ (ns = "" -> pre = "" /\ rest = "").
Proof.
  induction rest as [|ch rest IH]; intros pre ns tail Hpre H.
  - cbn [parseRawNumber_loop] in H. injection H as <- <-.
    rewrite append_empty_r. split; [exact Hpre|]. intros ->. split; reflexivity.
  - cbn [parseRawNumber_loop] in H. destruct (is_number_char ch) eqn:Hch.
    + specialize (IH (pre ++ String ch "") ns tail).
      rewrite all_bytes_app, Hpre in IH. cbn [all_bytes] in IH.
      rewrite Hch in IH. specialize (IH eq_refl).
      rewrite length_append, append_assoc in IH. cbn [String.length append] in IH.
      replace (String.length pre + 1)%nat with (S (String.length pre)) in IH by lia.
      destruct (IH H) as [H1 H2]. split; [exact H1|].
      intros E. destruct (H2 E) as [E' _]. destruct pre; discriminate E'.
    + destruct (Nat.eqb_spec (String.length pre) 0) as [|Hne]; [discriminate|].
      injection H as <- <-. rewrite take_app. split; [exact Hpre|].
      intros ->. now elim Hne.
Qed.

Lemma shape_array (v : Value) :
  t v = TypeArray ->
  parsed_shape v
  = forallb parsed_shape (a v) && match o v with [] => true | _ => false end.
Proof. destruct v as [vo va vs vn vt]. cbn. now intros ->. Qed.

Lemma shape_object (v : Value) :
  t v = TypeObject ->
  parsed_shape v
  = forallb (fun kv => parsed_shape (snd kv)) (o v)
    && match a v with [] => true | _ => false end.
Proof.
  destruct v as [vo va vs vn vt]. cbn. intros ->. f_equal.
  induction vo as [|[k x] vo IH]; cbn; [reflexivity|]. now rewrite IH.
Qed.

Lemma parse_shape (fuel : nat) :
  (forall str v tail, parseValue fuel str = Return (Ok v tail) ->
                      parsed_shape v = true)
  /\ (forall arr str v tail,
         parseArray_loop fuel arr str = Return (Ok v tail) ->
         t arr = TypeArray -> parsed_shape arr = true -> parsed_shape v = true)
  /\ (forall obj str v tail,
         parseObject_loop fuel obj str = Return (Ok v tail) ->
         t obj = TypeObject -> parsed_shape obj = true -> parsed_shape v = true).
Proof.
  induction fuel as [|fuel (IHv & IHal & IHol)].
  { repeat split; intros; discriminate. }
  split; [|split].
  - intros str v tail H. cbn [parseValue] in H.
    destruct str as [|c str1] eqn:Hstr; [discriminate|].
    destruct (Ascii.eqb c "{").
    { bind_step H. destruct y as [v' tl|e tl]; [|discriminate].
      injection H as <- <-.
      destruct fuel as [|fuel']; [discriminate|]. cbn [parseObject] in E.
      destruct (skipWS (drop 1 (String c str1))) as [|c' str']; [discriminate|].
      destruct (Ascii.eqb c' "}"); [now injection E as <- <-|].
      destruct (parse_fuel_mono fuel' (S fuel') ltac:(lia)) as (_ & _ & _ & _ & M).
      apply M in E. exact (IHol _ _ _ _ E eq_refl eq_refl). }
    destruct (Ascii.eqb c "[").
    { bind_step H. destruct y as [v' tl|e tl]; [|discriminate].
      injection H as <- <-.
      destruct fuel as [|fuel']; [discriminate|]. cbn [parseArray] in E.
      destruct (skipWS (drop 1 (String c str1))) as [|c' str']; [discriminate|].
      destruct (Ascii.eqb c' "]"); [now injection E as <- <-|].
      destruct (parse_fuel_mono fuel' (S fuel') ltac:(lia)) as (_ & _ & M & _).
      apply M in E. exact (IHal _ _ _ _ E eq_refl eq_refl). }
    destruct (Ascii.eqb c dquote).
    { bind_step H. destruct y as [ss tl|e tl]; [|discriminate].
      now injection H as <- <-. }
    destruct (Ascii.eqb c "t").
    { destruct (negb (HasPrefix (String c str1) "true")); [discriminate|].
      now injection H as <- <-. }
    destruct (Ascii.eqb c "f").
    { destruct (negb (HasPrefix (String c str1) "false")); [discriminate|].
      now injection H as <- <-. }
    destruct (Ascii.eqb c "n").
    { destruct (negb (HasPrefix (String c str1) "null")); [discriminate|].
      now injection H as <- <-. }
    destruct (parseRawNumber (String c str1)) as [ns tl|e tl] eqn:En; [|discriminate].
    injection H as <- <-.
    destruct (parseRawNumber_loop_shape (String c str1) "" ns tl eq_refl En)
      as [H1 H2].
    cbn. rewrite H1. destruct (String.eqb_spec ns "") as [E|_]; [|reflexivity].
    destruct (H2 E) as [_ E']. discriminate E'.
  - intros arr str v tail H Ht Hs. cbn [parseArray_loop] in H.
    bind_step H. destruct y as [x tl|e tl]; [|discriminate].
    assert (Hs' : parsed_shape (set_a arr (a arr ++ [x])%list) = true).
    { rewrite shape_array in Hs |- * by (destruct arr; exact Ht).
      apply andb_prop in Hs as [Hs1 Hs2].
      destruct arr as [vo va vs vn vt]. cbn [a o set_a] in *.
      rewrite forallb_app, Hs1, Hs2. cbn [forallb].
      now rewrite (IHv _ _ _ E). }
    destruct (skipWS tl) as [|c str']; [discriminate|].
    destruct (Ascii.eqb c ",").
    + refine (IHal _ _ _ _ H _ Hs'). destruct arr; exact Ht.
    + destruct (Ascii.eqb c "]"); [|discriminate]. now injection H as <- <-.
  - intros obj str v tail H Ht Hs. cbn [parseObject_loop] in H.
    bind_step H. destruct y as [k tl|e tl]; [|discriminate].
    destruct (negb (first_is (skipWS tl) ":")); [discriminate|].
    bind_step H. destruct y as [x tl2|e tl2]; [|discriminate].
    assert (Hs' : parsed_shape (set_o obj (o obj ++ [(k, x)])%list) = true).
    { rewrite shape_object in Hs |- * by (destruct obj; exact Ht).
      apply andb_prop in Hs as [Hs1 Hs2].
      destruct obj as [vo va vs vn vt]. cbn [a o set_o] in *.
      rewrite forallb_app, Hs1, Hs2. cbn [forallb snd].
      now rewrite (IHv _ _ _ E0). }
    destruct (skipWS tl2) as [|c str']; [discriminate|].
    destruct (Ascii.eqb c ",").
    + refine (IHol _ _ _ _ H _ Hs'). destruct obj; exact Ht.
    + destruct (Ascii.eqb c "}"); [|discriminate]. now injection H as <- <-.
Qed.

(** X17: every tree that [Parse] returns has its strings and numbers
    still raw (nothing is decoded while parsing), each number lexeme
    made of one or more number bytes, and arrays and objects made of such
    trees. *)
Theorem X17_Parse_builds_raw_trees (str : string) (v : Value) :
  Parse str = Return (inl v) -> parsed_shape v = true.
Proof.
  unfold Parse, Parse_with. intros H.
  bind_step H. destruct y as [x tail|e tail]; [|discriminate].
  destruct (0 <? len (skipWS tail)); [discriminate|].
  injection H as <-. destruct (parse_shape (3 * String.length str + 3)) as (HV & _).
  exact (HV _ _ _ E).
Qed.

Lemma X17_Parse_builds_raw_trees_witness :
  exists v, Parse ("[1,{" ++ quoted "k" ++ ":-2e3}]") = Return (inl v)
            /\ parsed_shape v = true.
Proof.
  eexists. split; [reflexivity|].
  exact (X17_Parse_builds_raw_trees ("[1,{" ++ quoted "k" ++ ":-2e3}]") _ eq_refl).
Defined.

End ShapeFacts.

(** ** Navigation, search and projection *)

Section WalkFacts.

Import JSON Access.

Variable ParseFloat : string -> option float64.
Variable Quote : string -> string.
Variable GetKeys : string -> list string * list string.
Variable splitBraces : string -> list string.

Local Abbreviation Keep := (Value_Keep ParseFloat Quote GetKeys splitBraces).
Local Abbreviation Search := (Value_Search ParseFloat Quote).

Lemma Value_Get_addressed (v : option Value) (keys : list string) :
  Value_Get v keys = Return (Described.addressed v keys).
Proof.
  destruct v as [v|]; [apply Get_loop_addressed | now destruct keys].
Qed.

Lemma addressed_app (keys1 keys2 : list string) :
  forall v, Described.addressed v (keys1 ++ keys2)
            = Described.addressed (Described.addressed v keys1) keys2.
Proof.
  induction keys1 as [|k keys1 IH]; intros [v|]; cbn [app Described.addressed];
    try reflexivity; try (now destruct keys2); apply IH.
Qed.

(** X18: following a path is following its first part and then, from
    the node reached, the rest: [Get] on [keys1] and [keys2] in a row is
    [Get] on [keys2] from the result of [Get] on [keys1], nil included. *)
Theorem X18_Get_composes (v : option Value) (keys1 keys2 : list string) :
  Value_Get v (keys1 ++ keys2)
  = (w <- Value_Get v keys1 ;; Value_Get w keys2).
Proof.
  rewrite !Value_Get_addressed. cbn [bind].
  rewrite Value_Get_addressed. now rewrite addressed_app.
Qed.

(** X19: each getter by path returns what the accessor of its type
    returns on the node that [Get] finds, and its zero value (nil, 0 or
    false) when [Get] finds no node or the accessor reports another type;
    none of them panics. *)
Theorem X19_getters (v : option Value) (keys : list string) :
  let found := Described.addressed v keys in
  let on {A B : Type} (zero : B) (get : Value -> Value * (A * option error))
         (val : A -> B) : outcome B :=
    Return match found with
           | None => zero
           | Some w =>
               match snd (get w) with
               | (x, None) => val x
               | (_, Some _) => zero
               end
           end in
  Value_GetObject ParseFloat v keys = on None (Value_Object ParseFloat) Some
  /\ Value_GetArray ParseFloat v keys = on None (Value_Array ParseFloat) Some
  /\ Value_GetFloat64 ParseFloat v keys
     = on f64_zero (Value_Float64 ParseFloat) (fun f => f)
  /\ Value_GetStringBytes ParseFloat v keys
     = on None (Value_StringBytes ParseFloat) (fun x => x)
  /\ Value_GetBool ParseFloat v keys
     = on false (Value_Bool ParseFloat) (fun b => b).
Proof.
  cbn zeta.
  unfold Value_GetObject, Value_GetArray, Value_GetFloat64, Value_GetStringBytes,
    Value_GetBool, Value_Object, Value_Array, Value_Float64, Value_StringBytes,
    Value_Bool.
  rewrite !Value_Get_addressed. cbn [bind].
  destruct (Described.addressed v keys) as [w|]; [|repeat split].
  destruct (Value_Type ParseFloat w) as [w' ty].
  destruct ty; repeat split.
Qed.

(** X20: on a node that is neither an array nor an object, [Search]
    does not look at the keys: keys left over when a scalar is reached
    are ignored, and no error reports them. *)
Theorem X20_Search_ignores_keys_on_scalars
  (fuel : nat) (v : Value) (keys keys' : list string) :
  t v <> TypeArray -> t v <> TypeObject ->
  Search (S fuel) (Some v) keys = Search (S fuel) (Some v) keys'.
Proof.
  intros Ha Ho. cbn [Value_Search].
  destruct v as [vo va vs vn vt]. cbn [t] in Ha, Ho.
  destruct vt; try reflexivity; contradiction.
Qed.

Lemma Type_of_container (v : Value) :
  t v = TypeArray \/ t v = TypeObject ->
  Value_Type ParseFloat v = (v, t v).
Proof.
  intros [H|H]; apply Type_decoded; rewrite H; discriminate.
Qed.

(** X21: on an object node [Search] needs a key that the object has:
    with no key left it panics on [keys[0]], and with a first key that
    the object lacks it calls itself on the nil node and panics there. *)
Theorem X21_Search_object_panics (fuel : nat) (v : Value) (key : string)
  (keys : list string) :
  t v = TypeObject ->
  Object_Get (o v) key = None ->
  Search (S fuel) (Some v) [] = Panic index_out_of_range
  /\ Search (S (S fuel)) (Some v) (key :: keys) = Panic nil_dereference.
Proof.
  intros Ht Habsent. split.
  - cbn [Value_Search]. unfold Value_Object.
    rewrite !Type_of_container by auto. rewrite Ht. reflexivity.
  - cbn [Value_Search]. unfold Value_Object.
    rewrite !Type_of_container by auto. rewrite Ht.
    cbn [JType_eqb negb index nth_error bind tl]. rewrite Habsent. reflexivity.
Qed.

(** X22: on an array node [Search] gives the results of its elements,
    for the same keys, one after the other in one list, when every
    element returns without error. *)
Theorem X22_Search_flattens_arrays (fuel : nat) (v : Value) (keys : list string)
  (results : list (list any)) :
  t v = TypeArray ->
  Forall2 (fun u r => Search fuel (Some u) keys = Return (r, None)) (a v) results ->
  Search (S fuel) (Some v) keys = Return (List.concat results, None).
Proof.
  intros Ht HF. cbn [Value_Search]. unfold Value_Array.
  rewrite !Type_of_container by auto. rewrite Ht. cbn [JType_eqb negb].
  rewrite <- (app_nil_l (List.concat results)).
  generalize (@nil any) at 2 3 as acc.
  induction HF as [|u r us rs Hu HF IH]; intros acc.
  - now rewrite app_nil_r.
  - rewrite Hu. cbn [bind List.concat]. rewrite IH, app_assoc. reflexivity.
Qed.

(** X23: on an array node [Keep] gives the list of the results of its
    elements, for the same request, when every element returns without
    error. *)
Theorem X23_Keep_maps_arrays (fuel : nat) (v : Value) (request : string)
  (results : list any) :
  t v = TypeArray ->
  Forall2 (fun u x => Keep fuel (Some u) request = Return (x, None)) (a v) results ->
  Keep (S fuel) (Some v) request = Return (ASlice results, None).
Proof.
  intros Ht HF. cbn [Value_Keep]. unfold Value_Array.
  rewrite !Type_of_container by auto. rewrite Ht. cbn [JType_eqb negb].
  rewrite <- (app_nil_l results).
  generalize (@nil any) at 2 3 as acc.
  induction HF as [|u x us xs Hu HF IH]; intros acc.
  - now rewrite app_nil_r.
  - rewrite Hu. cbn [bind]. rewrite IH, <- app_assoc. reflexivity.
Qed.


(** The map that the assignments [rValues[k] = x] build, in order. *)
Lemma Keep_stays_loop (fuel : nat) (pValue : Object) (stays : list string)
  (results : list any) :
  Forall2 (fun k x => exists child, Object_Get pValue k = Some child
                      /\ Keep fuel (Some child) "" = Return (x, None))
          stays results ->
  forall (rValues : list (string * any)) (err : option error)
         (k : list (string * any) -> outcome (any * option error)),
    (fix range_stays (stays : list string) (rValues : list (string * any))
         (err : option error) :=
       match stays with
       | [] => k rValues
       | stay :: stays' =>
           let next := Object_Get pValue stay in
           match next with
           | None => Return (ANil, err)
           | Some _ =>
               r <- Keep fuel next "" ;;
               let '(x, err) := r in
               let rValues := map_set rValues stay x in
               match err with
               | Some e => Return (ANil, Some e)
               | None => range_stays stays' rValues err
               end
           end
       end) stays rValues err
    = k (fold_left (fun m kx => map_set m (fst kx) (snd kx))
           (combine stays results) rValues).
Proof.
  induction 1 as [|stay x stays xs (child & Hc & Hk) HF IH]; intros rValues err k;
    [reflexivity|].
  cbv zeta. rewrite Hc, Hk. cbn [bind combine fold_left fst snd]. apply IH.
Qed.

(** X25: on an object node, when the request has plain keys only, the
    object has each of them and [Keep] with the empty request returns
    without error on each of their values, [Keep] returns the map from
    these keys to these results. *)
Theorem X25_Keep_plain_keys (fuel : nat) (v : Value) (request : string)
  (stays : list string) (results : list any) :
  t v = TypeObject ->
  GetKeys request = (stays, []) ->
  Forall2 (fun k x => exists child, Object_Get (o v) k = Some child
                      /\ Keep fuel (Some child) "" = Return (x, None))
          stays results ->
  Keep (S fuel) (Some v) request
  = Return (AMap (fold_left (fun m kx => map_set m (fst kx) (snd kx))
                    (combine stays results) []), None).
Proof.
  intros Ht Hkeys HF. cbn [Value_Keep]. unfold Value_Object.
  rewrite !Type_of_container by auto. rewrite Ht. cbn [JType_eqb negb].
  rewrite Hkeys.
  exact (Keep_stays_loop fuel (o v) stays results HF [] None
           (fun rValues => Return (AMap rValues, None))).
Qed.

End WalkFacts.

Lemma X20_Search_ignores_keys_on_scalars_witness :
  Access.Value_Search Strconv.ParseFloat quoted 1
    (Some (JSON.rawValue typeRawNumber "1.5")) ["a"; "b"]
  = Access.Value_Search Strconv.ParseFloat quoted 1
      (Some (JSON.rawValue typeRawNumber "1.5")) [].
Proof.
  exact (X20_Search_ignores_keys_on_scalars Strconv.ParseFloat quoted 0
           (JSON.rawValue typeRawNumber "1.5")
           ["a"; "b"] [] ltac:(discriminate) ltac:(discriminate)).
Defined.

(** X21 at the object with the one key [a]: no key, and the key [b]. *)
Lemma X21_Search_object_panics_witness :
  let v := JSON.set_o (JSON.set_t JSON.getValue TypeObject)
             [("a", JSON.rawValue typeRawNumber "1")] in
  Access.Value_Search Strconv.ParseFloat quoted 1 (Some v) []
  = Panic index_out_of_range
  /\ Access.Value_Search Strconv.ParseFloat quoted 2 (Some v) ["b"; "c"]
     = Panic nil_dereference.
Proof.
  intros v.
  exact (X21_Search_object_panics Strconv.ParseFloat quoted 0 v "b" ["c"]
           eq_refl eq_refl).
Defined.

(** X22 at the array of the array of [1] and the text [x]. *)
Lemma X22_Search_flattens_arrays_witness :
  let inner := JSON.set_a (JSON.set_t JSON.getValue TypeArray)
                 [JSON.rawValue typeRawNumber "1"] in
  let v := JSON.set_a (JSON.set_t JSON.getValue TypeArray)
             [inner; JSON.rawValue typeRawString "x"] in
  Access.Value_Search Strconv.ParseFloat quoted 3 (Some v) ["k"]
  = Return ([AFloat64 (float64_of_int64 1); AString (quoted "x")], None).
Proof.
  intros inner v.
  refine (X22_Search_flattens_arrays Strconv.ParseFloat quoted 2 v ["k"]
           [[AFloat64 (float64_of_int64 1)]; [AString (quoted "x")]]
           eq_refl _).
  repeat constructor.
Defined.

(** X23 at the array of [1] and the text [x]. *)
Lemma X23_Keep_maps_arrays_witness :
  let v := JSON.set_a (JSON.set_t JSON.getValue TypeArray)
             [JSON.rawValue typeRawNumber "1"; JSON.rawValue typeRawString "x"] in
  JSON.Value_Keep Strconv.ParseFloat quoted (fun req => ([req], []))
    (fun _ => []) 2 (Some v) "k"
  = Return (ASlice [AFloat64 (float64_of_int64 1); AString (quoted "x")], None).
Proof.
  intros v.
  refine (X23_Keep_maps_arrays Strconv.ParseFloat quoted (fun req => ([req], []))
           (fun _ => []) 1 v "k"
           [AFloat64 (float64_of_int64 1); AString (quoted "x")] eq_refl _).
  repeat constructor.
Defined.


(** X25 at the object with the keys [a] and [b] and the request [a]. *)
Lemma X25_Keep_plain_keys_witness :
  let v := JSON.set_o (JSON.set_t JSON.getValue TypeObject)
             [("a", JSON.rawValue typeRawNumber "1");
              ("b", JSON.rawValue typeRawString "x")] in
  JSON.Value_Keep Strconv.ParseFloat quoted (fun req => ([req], []))
    (fun _ => []) 2 (Some v) "a"
  = Return (AMap [("a", AFloat64 (float64_of_int64 1))], None).
Proof.
  intros v.
  refine (X25_Keep_plain_keys Strconv.ParseFloat quoted (fun req => ([req], []))
           (fun _ => []) 1 v "a" ["a"] [AFloat64 (float64_of_int64 1)]
           eq_refl eq_refl _).
  constructor; [|constructor].
  exists (JSON.rawValue typeRawNumber "1"). split; reflexivity.
Defined.

(** ** The patterns and the query compiler *)

Section PatternFacts.

Import Regexp.

Context {A : Type}.
Variable total : nat.

(** What the matcher finds is a match of the pattern: when [run] gives
    an answer, it is the answer of its continuation at a text that the
    pattern leaves. *)
Lemma run_matches (r : regex) :
  forall (str : string) (caps : captures) (k : string -> captures -> option A) (x : A),
    run total r str caps k = Some x ->
    exists str' caps', matches total r str str' /\ k str' caps' = Some x.
Proof.
  assert (Hstar : forall r1,
    (forall str caps (k : string -> captures -> option A) x,
        run total r1 str caps k = Some x ->
        exists str' caps', matches total r1 str str' /\ k str' caps' = Some x) ->
    forall (k : string -> captures -> option A) x fuel str caps,
      (fix star (fuel : nat) (str : string) (caps : captures) : option A :=
         match fuel with
         | O => k str caps
         | S fuel' =>
             match run total r1 str caps
                     (fun str' caps' =>
                        if Nat.ltb (String.length str') (String.length str)
                        then star fuel' str' caps' else None) with
             | Some x => Some x
             | None => k str caps
             end
         end) fuel str caps = Some x ->
      exists str' caps', matches total (Star r1) str str' /\ k str' caps' = Some x).
  { intros r1 IH k x fuel.
    induction fuel as [|fuel IHf]; intros str caps H.
    - exists str, caps. split; [constructor | exact H].
    - match type of H with
      | match ?c with _ => _ end = _ => destruct c as [y|] eqn:E
      end.
      + injection H as H; subst y.
        apply IH in E as (str1 & caps1 & M1 & E).
        destruct (Nat.ltb (String.length str1) (String.length str)); [|discriminate].
        apply IHf in E as (str2 & caps2 & M2 & E).
        exists str2, caps2. split; [|congruence].
        eapply m_star_cons; eassumption.
      + exists str, caps. split; [constructor | exact H]. }
  induction r as [| |c|negated ranges|r1 IH1 r2 IH2|r1 IH1 r2 IH2|r1 IH1|r1 IH1|r1 IH1|i r1 IH1];
    intros str caps k x H; cbn [run] in H.
  - destruct (Nat.eqb_spec (String.length str) total); [|discriminate].
    exists str, caps. split; [now constructor | exact H].
  - destruct str; [|discriminate].
    exists "", caps. split; [constructor | exact H].
  - destruct str as [|c' str]; [discriminate|].
    destruct (Ascii.eqb_spec c' c) as [->|]; [|discriminate].
    exists str, caps. split; [constructor | exact H].
  - destruct str as [|c' str]; [discriminate|].
    destruct (class_matches negated ranges c') eqn:E; [|discriminate].
    exists str, caps. split; [now constructor | exact H].
  - apply IH1 in H as (str1 & caps1 & M1 & H).
    apply IH2 in H as (str2 & caps2 & M2 & H).
    exists str2, caps2. split; [econstructor; eassumption | exact H].
  - destruct (run total r1 str caps k) as [y|] eqn:E.
    + apply IH1 in E as (str1 & caps1 & M1 & E).
      exists str1, caps1. split; [now apply m_alt_l | congruence].
    + apply IH2 in H as (str1 & caps1 & M1 & H).
      exists str1, caps1. split; [now apply m_alt_r | exact H].
  - exact (Hstar r1 IH1 k x (S (String.length str)) str caps H).
  - apply IH1 in H as (str1 & caps1 & M1 & H).
    destruct (Hstar r1 IH1 k x (S (String.length str1)) str1 caps1 H)
      as (str2 & caps2 & M2 & H').
    exists str2, caps2. split; [eapply m_plus; eassumption | exact H'].
  - destruct (run total r1 str caps k) as [y|] eqn:E.
    + apply IH1 in E as (str1 & caps1 & M1 & E).
      exists str1, caps1. split; [now apply m_opt_some | congruence].
    + exists str, caps. split; [apply m_opt_none | exact H].
  - apply IH1 in H as (str1 & caps1 & M1 & H).
    eexists str1, _. split; [now constructor | exact H].
Qed.

End PatternFacts.

Section MatchFacts.

Import Regexp.

(** A pattern takes a head of the text. *)
Lemma matches_suffix (total : nat) (r : regex) (str str' : string) :
  matches total r str str' -> exists p, str = p ++ str'.
Proof.
  induction 1;
    repeat match goal with
           | H : exists _, _ |- _ => destruct H as [? ->]
           end;
    try (now exists "");
    try (now exists (String c ""));
    try (now eexists);
    try (now eexists; rewrite append_assoc).
Qed.

Lemma find_from_match (total : nat) (r : regex) (str : string) (m : captures * string) :
  find_from total r str = Some m ->
  exists p str1, str = p ++ str1 /\ match_here total r str1 = Some m.
Proof.
  induction str as [|c str IH]; cbn [find_from].
  - destruct (match_here total r "") eqn:E; [|discriminate].
    intros H. exists "", "". split; [reflexivity | congruence].
  - destruct (match_here total r (String c str)) eqn:E.
    + intros H. exists "", (String c str). split; [reflexivity | congruence].
    + intros H. apply IH in H as (p & str1 & -> & H).
      exists (String c p), str1. split; [reflexivity | exact H].
Qed.

(** What the outer pattern of a query matches has an opening brace and
    ends with a closing brace. *)
Lemma cmdRegex_shape (total : nat) (str rest : string) :
  matches total Query.cmdRegex str rest ->
  exists head body, str = head ++ String "{" (body ++ "}").
Proof.
  unfold Query.cmdRegex. intros M.
  inversion M as [| | | |? ? ? s1 ? M0 M1| | | | | | | |]; subst; clear M.
  inversion M1 as [| | | |? ? ? s2 ? Ma M2| | | | | | | |]; subst; clear M1.
  inversion M2 as [| | | |? ? ? s3 ? Mb M3| | | | | | | |]; subst; clear M2.
  inversion M3 as [| | | |? ? ? s4 ? Mc M4| | | | | | | |]; subst; clear M3.
  inversion M4 as [| | | |? ? ? s5 ? Md M5| | | | | | | |]; subst; clear M4.
  inversion M5 as [| | | |? ? ? s6 ? Me M6| | | | | | | |]; subst; clear M5.
  inversion M6; subst; clear M6.
  inversion Me; subst; clear Me.
  inversion Mc; subst; clear Mc.
  apply matches_suffix in M0 as [p0 ->], Ma as [pa ->], Mb as [pb ->], Md as [pd ->].
  exists (p0 ++ pa ++ pb), pd. now rewrite !append_assoc.
Qed.

Lemma last_byte_app (p : string) (c : ascii) :
  String.get (String.length (p ++ String c "") - 1) (p ++ String c "") = Some c.
Proof.
  induction p as [|d p IH]; [reflexivity|].
  cbn [append String.length]. rewrite Nat.sub_succ, Nat.sub_0_r.
  destruct (String.length (p ++ String c "")) eqn:E.
  - destruct p; discriminate.
  - cbn [String.get]. now rewrite Nat.sub_succ, Nat.sub_0_r in IH.
Qed.

Lemma IndexByte_present (p q : string) (c : ascii) :
  IndexByte (p ++ String c q) c <> None.
Proof.
  induction p as [|d p IH]; cbn [append IndexByte].
  - now rewrite Ascii.eqb_refl.
  - destruct (Ascii.eqb d c); [discriminate|].
    destruct (IndexByte (p ++ String c q) c); [discriminate | contradiction].
Qed.

Lemma submatch_length (groups : nat) (caps : captures) :
  List.length (submatch groups caps) = S groups.
Proof. unfold submatch. now rewrite length_map, length_seq. Qed.

Lemma find_all_length (fuel total groups : nat) (r : regex) :
  forall str, Forall (fun m => List.length m = S groups)
                (find_all fuel total groups r str).
Proof.
  induction fuel as [|fuel IH]; intros str; cbn [find_all]; [constructor|].
  destruct (find_from total r str) as [[caps rest]|]; [|constructor].
  constructor; [apply submatch_length|].
  destruct (Nat.ltb _ _); [apply IH | constructor].
Qed.

End MatchFacts.

Section CompileFacts.

Import Query Filters.

Variable ParseFloat : string -> option float64.

(** X26: [ParseQuery] never returns an error, and [MustParseQuery] is
    [ParseQuery] without the error: it returns the same level, stops on
    the same panic, and never panics on an error of its own. *)
Theorem X26_ParseQuery_never_returns_an_error (cmd : string) :
  (forall lvl err, ParseQuery ParseFloat cmd = Return (lvl, err) -> err = None)
  /\ MustParseQuery ParseFloat cmd
     = (r <- ParseQuery ParseFloat cmd ;; Return (fst r)).
Proof.
  split.
  - intros lvl err H. unfold ParseQuery in H.
    apply bind_Return in H as ([[l nm] e] & H1 & H2).
    apply parseQuery_error_is_nil in H1. inversion H2. congruence.
  - unfold MustParseQuery, ParseQuery.
    destruct (parseQuery ParseFloat (S (String.length cmd)) cmd)
      as [[[l nm] e]| |] eqn:E; try reflexivity.
    apply parseQuery_error_is_nil in E. now subst e.
Qed.

(** X27: [newFilter] returns on every text: each match of the filter
    pattern has its three groups, so the indexing never fails; it gives
    at most one filter for a match, and the key of a filter is never
    empty. *)
Theorem X27_newFilter_returns (cmd : string) :
  exists fs,
    newFilter ParseFloat cmd = Return fs
    /\ (List.length fs
        <= List.length (Regexp.FindAllStringSubmatch 3 filterRegex cmd))%nat
    /\ Forall (fun f => key f <> "") fs.
Proof.
  unfold newFilter, Regexp.FindAllStringSubmatch.
  pose proof (find_all_length (S (String.length cmd)) (String.length cmd) 3
                filterRegex cmd) as HF.
  set (ms := Regexp.find_all _ _ _ _ _) in *. clearbody ms.
  enough (G : forall filters, Forall (fun f => key f <> "") filters ->
            exists fs,
              (fix range (ms : list (list string)) (filters : list Filter) :=
                 match ms with
                 | [] => Return filters
                 | m :: ms' =>
                     m1 <- index m 1 ;;
                     m2 <- index m 2 ;;
                     m3 <- index m 3 ;;
                     if (0 <? len m1) && (0 <? len m2) && (0 <? len m3)
                     then range ms' (filters ++ [mkFilter m1 (findOperation m2)
                                                   (typed ParseFloat m3)])%list
                     else range ms' filters
                 end) ms filters = Return fs
              /\ (List.length fs <= List.length filters + List.length ms)%nat
              /\ Forall (fun f => key f <> "") fs).
  { destruct (G [] (Forall_nil _)) as (fs & E & L & K). exists fs. auto. }
  induction HF as [|m ms Hm HF IH]; intros filters HK.
  - exists filters. repeat split; [cbn; lia | exact HK].
  - destruct m as [|m0 [|m1 [|m2 [|m3 [|]]]]]; try discriminate.
    cbn [index nth_error bind].
    destruct ((0 <? len m1) && (0 <? len m2) && (0 <? len m3)) eqn:E.
    + destruct (IH (filters ++ [mkFilter m1 (findOperation m2) (typed ParseFloat m3)])%list)
        as (fs & E' & L & K).
      { apply Forall_app. split; [exact HK|]. constructor; [|constructor].
        cbn [key]. intros ->. now rewrite !andb_true_iff in E. }
      exists fs. repeat split; [exact E' | | exact K].
      rewrite length_app in L. cbn [List.length] in *. lia.
    + destruct (IH filters HK) as (fs & E' & L & K).
      exists fs. repeat split; [exact E' | | exact K].
      cbn [List.length]. lia.
Qed.

(** X28: a query without an opening brace, or whose last byte is not a
    closing brace, makes [ParseQuery] panic; so do blanks after the last
    brace. *)
Theorem X28_query_needs_its_braces (cmd : string) :
  IndexByte cmd "{" = None
  \/ String.get (String.length cmd - 1) cmd <> Some "}"%char ->
  ParseQuery ParseFloat cmd = Panic index_out_of_range.
Proof.
  intros H.
  assert (E : Regexp.FindStringSubmatch 3 cmdRegex cmd = []).
  { unfold Regexp.FindStringSubmatch.
    destruct (Regexp.find_from (String.length cmd) cmdRegex cmd) as [[caps rest]|] eqn:E;
      [exfalso | reflexivity].
    apply find_from_match in E as (p & str1 & -> & E).
    unfold Regexp.match_here in E. cbn [Regexp.run] in E.
    apply run_matches in E as (str' & caps' & M & _).
    apply cmdRegex_shape in M as (head & body & ->).
    destruct H as [H|H].
    - rewrite <- append_assoc in H. now apply IndexByte_present in H.
    - apply H.
      replace (p ++ head ++ String "{" (body ++ "}"))
        with ((p ++ head ++ String "{" body) ++ "}").
      + apply last_byte_app.
      + rewrite !append_assoc. reflexivity. }
  unfold ParseQuery. cbn [parseQuery]. rewrite E. reflexivity.
Qed.

End CompileFacts.

(** X28 at a query with a blank after its last brace. *)
Lemma X28_query_needs_its_braces_witness :
  Query.ParseQuery Strconv.ParseFloat "a{b} " = Panic index_out_of_range.
Proof.
  apply X28_query_needs_its_braces. right. cbn. discriminate.
Defined.

(** ** Splitting a level at its commas *)

Section SplitFacts.

Import Query.

Local Abbreviation is_ascii := (fun c : ascii => Nat.ltb (nat_of_ascii c) 128).
Local Abbreviation chars := list_ascii_of_string.
Local Abbreviation joined :=
  (fold_right (fun part acc : string => part ++ "," ++ acc) "").

Lemma byte_of_byte_val (c : ascii) : JSON.byte_of_Z (byte_val c) = c.
Proof.
  unfold JSON.byte_of_Z, byte_val, nat_of_ascii.
  rewrite <- nat_N_Z, N2Z.id, Nnat.N2Nat.id. apply ascii_N_embedding.
Qed.

Lemma byte_val_small (c : ascii) :
  is_ascii c = true -> 0 <= byte_val c < 128.
Proof. unfold byte_val. intros H%Nat.ltb_lt. lia. Qed.

Lemma string_of_rune_ascii (c : ascii) :
  is_ascii c = true -> JSON.string_of_rune (byte_val c) = String c "".
Proof.
  intros H%byte_val_small. unfold JSON.string_of_rune, JSON.is_surrogate, JSON.utf8_bytes.
  rewrite byte_of_byte_val.
  destruct (Z.ltb_spec (byte_val c) 0); [lia|].
  destruct (Z.ltb_spec 1114111 (byte_val c)); [lia|].
  destruct (Z.leb_spec 55296 (byte_val c)); [lia|].
  destruct (Z.leb_spec (byte_val c) 127); [reflexivity | lia].
Qed.

Lemma byte_val_inj (c d : ascii) : byte_val c = byte_val d -> c = d.
Proof.
  intros H. rewrite <- (byte_of_byte_val c), <- (byte_of_byte_val d). now rewrite H.
Qed.

(** On ASCII text a turn of the loop over the string is one byte. *)
Lemma range_string_ascii (str : string) :
  all_bytes is_ascii str = true ->
  forall fuel index, (String.length str <= fuel)%nat ->
    map snd (range_string fuel index str) = map byte_val (chars str).
Proof.
  induction str as [|c str IH]; intros Hs fuel index Hf.
  - now destruct fuel.
  - destruct fuel as [|fuel]; [cbn in Hf; lia|].
    cbn [all_bytes] in Hs. apply andb_true_iff in Hs as [Hc Hs].
    cbn [range_string decode_rune].
    destruct (Z.ltb_spec (byte_val c) 128); [|apply byte_val_small in Hc; lia].
    cbn [map snd list_ascii_of_string drop]. f_equal.
    apply IH; [exact Hs | cbn in Hf; lia].
Qed.

Lemma all_bytes_drop (p : ascii -> bool) (k : nat) :
  forall str, all_bytes p str = true -> all_bytes p (drop k str) = true.
Proof.
  induction k as [|k IH]; intros [|c str] H; try exact H.
  cbn [all_bytes] in H. apply andb_true_iff in H as [_ H]. now apply IH.
Qed.

Lemma skipn_chars (k : nat) :
  forall str, skipn k (chars str) = chars (drop k str).
Proof. induction k as [|k IH]; intros [|c str]; try reflexivity. apply IH. Qed.

Lemma string_of_runes_firstn (n : nat) :
  forall str, all_bytes is_ascii str = true ->
    string_of_runes (firstn n (map byte_val (chars str))) = take n str.
Proof.
  induction n as [|n IH]; intros [|c str] H; try reflexivity.
  cbn [all_bytes] in H. apply andb_true_iff in H as [Hc H].
  cbn [list_ascii_of_string map firstn string_of_runes fold_right take].
  rewrite string_of_rune_ascii by exact Hc. cbn [append]. f_equal.
  now apply IH.
Qed.

Lemma length_chars (str : string) : List.length (chars str) = String.length str.
Proof. induction str as [|c str IH]; [reflexivity | cbn; now rewrite IH]. Qed.

(** On ASCII text [runes[lo:hi]] is the text between the two indices. *)
Lemma slice_runes_ascii (line : string) (lo hi : nat) :
  all_bytes is_ascii line = true ->
  (lo <= hi <= String.length line)%nat ->
  part <- slice (runes_of line) lo hi ;; Return (string_of_runes part)
  = Return (take (hi - lo) (drop lo line)).
Proof.
  intros Ha H. unfold runes_of, range_of.
  rewrite range_string_ascii by (auto; lia).
  unfold slice. rewrite length_map, length_chars.
  destruct (Nat.ltb_spec (String.length line) hi); [lia|].
  destruct (Nat.ltb_spec hi lo); [lia|]. cbn [orb bind].
  rewrite skipn_map, skipn_chars.
  now rewrite string_of_runes_firstn by now apply all_bytes_drop.
Qed.

Lemma take_take_drop (i : nat) :
  forall j x, (i <= j)%nat -> take i x ++ take (j - i) (drop i x) = take j x.
Proof.
  induction i as [|i IH]; intros j x H.
  - now rewrite Nat.sub_0_r.
  - destruct j as [|j]; [lia|]. rewrite Nat.sub_succ.
    destruct x as [|c x]; [now destruct (j - i)%nat|].
    cbn [take drop append]. f_equal. apply IH. lia.
Qed.

Lemma take_all (k : nat) :
  forall x, (String.length x <= k)%nat -> take k x = x.
Proof.
  induction k as [|k IH]; intros [|c x] H; try reflexivity; cbn in H; [lia|].
  cbn [take]. f_equal. apply IH. lia.
Qed.

Lemma joined_app (array : list string) (x : string) :
  joined (array ++ [x])%list = joined array ++ x ++ ",".
Proof.
  induction array as [|y array IH]; cbn [app fold_right].
  - now rewrite append_empty_r.
  - now rewrite IH, !append_assoc.
Qed.

Lemma concat_joined (array : list string) (x : string) :
  String.concat "," (array ++ [x])%list = joined array ++ x.
Proof.
  induction array as [|y array IH]; [reflexivity|].
  cbn [app fold_right]. rewrite !append_assoc, <- IH.
  cbn [String.concat]. now destruct (array ++ [x])%list eqn:E; [destruct array|].
Qed.

Lemma joined_concat (array : list string) :
  array <> [] -> joined array = String.concat "," array ++ ",".
Proof.
  intros H. destruct (exists_last H) as (front & x & ->).
  now rewrite joined_app, concat_joined, append_assoc.
Qed.

(** The loop of [splitComa] on ASCII text: the parts taken so far, each
    followed by a comma, are the text before [firstIndex]. *)
Lemma splitComa_loop_ascii (line : string) :
  all_bytes is_ascii line = true ->
  forall rest done count firstIndex array fuel,
    line = done ++ rest ->
    (String.length rest <= fuel)%nat ->
    (firstIndex <= String.length done)%nat ->
    joined array = take firstIndex line ->
    exists array' firstIndex',
      splitComa_loop (runes_of line) (range_string fuel (String.length done) rest)
        count firstIndex array = Return (array', firstIndex')
      /\ (firstIndex' <= String.length line)%nat
      /\ joined array' = take firstIndex' line.
Proof.
  intros Ha. induction rest as [|c rest IH];
    intros done count firstIndex array fuel Hl Hf Hi Hj.
  - exists array, firstIndex. subst line. rewrite append_empty_r in *.
    destruct fuel; cbn [range_string splitComa_loop]; auto.
  - destruct fuel as [|fuel]; [cbn in Hf; lia|].
    assert (Hc : is_ascii c = true).
    { subst line. rewrite all_bytes_app in Ha. cbn [all_bytes] in Ha.
      now rewrite !andb_true_iff in Ha. }
    assert (Hl' : line = (done ++ String c "") ++ rest)
      by now rewrite append_assoc.
    assert (Hn : String.length (done ++ String c "") = (String.length done + 1)%nat)
      by now rewrite length_append.
    cbn [range_string decode_rune].
    destruct (Z.ltb_spec (byte_val c) 128); [|apply byte_val_small in Hc; lia].
    cbn [drop splitComa_loop]. rewrite <- Hn.
    assert (Hsame : forall count,
      exists array' firstIndex',
        splitComa_loop (runes_of line)
          (range_string fuel (String.length (done ++ String c "")) rest)
          count firstIndex array = Return (array', firstIndex')
        /\ (firstIndex' <= String.length line)%nat
        /\ joined array' = take firstIndex' line).
    { intros count'. apply IH; auto; [cbn in Hf|]; lia. }
    destruct (byte_val c =? 123); [apply Hsame|].
    destruct (byte_val c =? 125); [apply Hsame|].
    destruct (Z.eqb_spec (byte_val c) 44) as [E|]; [|apply Hsame].
    destruct (count =? 0); [|apply Hsame].
    assert (c = ","%char) by now apply byte_val_inj.
    subst c.
    pose proof (slice_runes_ascii line firstIndex (String.length done) Ha) as Hs.
    destruct (slice (runes_of line) firstIndex (String.length done)) as [part| |];
      cbn [bind] in Hs |- *;
      try (exfalso; enough (Hd : (firstIndex <= String.length done
                                  <= String.length line)%nat)
             by (specialize (Hs Hd); discriminate);
           subst line; rewrite length_append; lia).
    assert (Hd : (firstIndex <= String.length done <= String.length line)%nat)
      by (subst line; rewrite length_append; lia).
    specialize (Hs Hd). injection Hs as Hs.
    apply IH; auto; [cbn in Hf; lia|].
    rewrite joined_app, Hj, Hs.
    rewrite <- append_assoc, take_take_drop by lia.
    rewrite Hl' at 2. rewrite take_app.
    rewrite Hl at 1. now rewrite take_app.
Qed.

(** X29: on ASCII text [splitComa] returns, and its parts, joined by
    commas, are the text, or the text without its last byte when that
    byte is a comma at which it split: nothing else is lost or added. *)
Theorem X29_splitComa_ascii (line : string) :
  all_bytes is_ascii line = true ->
  exists parts,
    splitComa line = Return parts
    /\ (String.concat "," parts = line \/ String.concat "," parts ++ "," = line).
Proof.
  intros Ha. unfold splitComa, range_of.
  destruct (splitComa_loop_ascii line Ha line "" 0 0%nat [] (String.length line))
    as (array & firstIndex & E & Hi & Hj); auto.
  cbn [String.length] in E. rewrite E. cbn [bind].
  destruct (Nat.ltb_spec firstIndex (String.length line)) as [Hlt|Hge].
  - pose proof (slice_runes_ascii line firstIndex (String.length line) Ha) as Hs.
    destruct (slice (runes_of line) firstIndex (String.length line)) as [part| |];
      cbn [bind] in Hs |- *; try (specialize (Hs ltac:(lia)); discriminate).
    eexists. split; [reflexivity|]. left.
    specialize (Hs ltac:(lia)). injection Hs as ->.
    rewrite concat_joined, Hj.
    rewrite (take_all _ (drop firstIndex line)) by (rewrite length_drop; lia).
    apply take_drop.
  - exists array. split; [reflexivity|].
    rewrite take_all in Hj by lia.
    destruct array as [|x array]; [now left|].
    right. now rewrite <- joined_concat.
Qed.

End SplitFacts.

(** X29 at a line with a comma inside braces and a comma at its end. *)
Lemma X29_splitComa_ascii_witness :
  exists parts,
    Query.splitComa "a,b{c,d}," = Return parts
    /\ (String.concat "," parts = "a,b{c,d},"
        \/ String.concat "," parts ++ "," = "a,b{c,d},").
Proof.
  apply X29_splitComa_ascii. reflexivity.
Defined.

(** ** Nested selections of [Keep] *)

Section NestedFacts.

Import JSON.

Variable ParseFloat : string -> option float64.
Variable Quote : string -> string.
Variable GetKeys : string -> list string * list string.
Variable splitBraces : string -> list string.

Local Abbreviation Keep := (Value_Keep ParseFloat Quote GetKeys splitBraces).


End NestedFacts.

